(** * Nagar Rakshak chat widget: session, speech playback and report dispatch

    A shallow embedding of [ChatInterface.tsx] and [EmailModal.tsx].

    Each React component becomes a record of its [useState] cells; every
    event handler becomes a function on that record.  An [async] handler is
    cut at its [await]: the part that runs inside the triggering event
    ([handleSubmit_sync]) and the continuation that runs when the request
    settles ([handleSubmit_resume]).  Whatever a handler does to the outside
    (a [fetch], a call of a callback prop, an [alert]) is returned as a list
    of effects, in program order.  Output on [console] is not modelled. *)

From Stdlib Require Import String Ascii NArith QArith Bool Arith Lia List.
Import ListNotations.
Close Scope Q_scope.
Open Scope list_scope.
Set Warnings "-register-all".

(* ------------------------------------------------------------------------- *)
(** ** JavaScript values used by the two components *)

Module JS.

(** A JavaScript string is a sequence of UTF-16 code units. *)
Definition jsstring := list N.

(** An ASCII literal of the source, as code units. *)
Definition lit (s : string) : jsstring :=
  map N_of_ascii (list_ascii_of_string s).

(** [a === b] on strings. *)
Fixpoint jsstring_eqb (a b : jsstring) : bool :=
  match a, b with
  | [], [] => true
  | x :: a', y :: b' => N.eqb x y && jsstring_eqb a' b'
  | _, _ => false
  end.

(** ECMAScript [WhiteSpace] and [LineTerminator] code points, which are the
    ones [String.prototype.trim] removes.  All of them are single code
    units. *)
Definition white_space : list N :=
  [ 9; 10; 11; 12; 13; 32; 160; 5760;
    8192; 8193; 8194; 8195; 8196; 8197; 8198; 8199; 8200; 8201; 8202;
    8232; 8233; 8239; 8287; 12288; 65279 ]%N.

Definition is_white_space (c : N) : bool := existsb (N.eqb c) white_space.

Fixpoint trim_start (s : jsstring) : jsstring :=
  match s with
  | [] => []
  | c :: rest => if is_white_space c then trim_start rest else s
  end.

Definition trim_end (s : jsstring) : jsstring := rev (trim_start (rev s)).

(** [s.trim()] *)
Definition trim (s : jsstring) : jsstring := trim_end (trim_start s).

(** Truthiness of a string: only the empty string is falsy. *)
Definition string_truthy (s : jsstring) : bool :=
  match s with [] => false | _ :: _ => true end.

(** [s.toLowerCase()], on the letters A-Z.  Code units outside that range
    are kept as they are: the Unicode case mapping of other scripts is not
    modelled (it only matters for the names of platform voices). *)
Definition toLowerCase (s : jsstring) : jsstring :=
  map (fun c => if ((65 <=? c) && (c <=? 90))%N then (c + 32)%N else c) s.

(** [s.startsWith(p)] *)
Fixpoint startsWith (s p : jsstring) : bool :=
  match p, s with
  | [], _ => true
  | _ :: _, [] => false
  | x :: p', y :: s' => N.eqb x y && startsWith s' p'
  end.

(** [s.includes(p)] *)
Fixpoint includes (s p : jsstring) : bool :=
  startsWith s p ||
  match s with
  | [] => false
  | _ :: s' => includes s' p
  end.

(** Values that flow through the components at run time: what
    [response.json()] can produce, plus [undefined], which a property read
    of an absent field produces.  A number is kept as the rational its
    literal denotes; the components never compute with one. *)
Inductive jsval : Type :=
| JUndefined
| JNull
| JBool (b : bool)
| JNumber (q : Q)
| JString (s : jsstring)
| JArray (items : list jsval)
| JObject (fields : list (jsstring * jsval)).

Fixpoint lookup_field (k : jsstring) (fields : list (jsstring * jsval)) : jsval :=
  match fields with
  | [] => JUndefined
  | (k', v) :: rest => if jsstring_eqb k k' then v else lookup_field k rest
  end.

(** Result of evaluating a piece of code that may throw. *)
Inductive completion (A : Type) : Type :=
| Normal (a : A)
| Throw (message : jsstring).
Arguments Normal {A} a.
Arguments Throw {A} message.

Definition bind {A B} (c : completion A) (k : A -> completion B) : completion B :=
  match c with
  | Normal a => k a
  | Throw m => Throw m
  end.

Notation "x <- c ;; k" := (bind c (fun x => k))
  (at level 61, c at next level, right associativity).

(** [v.k], a property read.  It throws a [TypeError] on [undefined] and
    [null]; on every other value a name that is not an own field reads as
    [undefined] (none of the names read by the components is defined on the
    built-in prototypes). *)
Definition get_prop (v : jsval) (k : jsstring) : completion jsval :=
  match v with
  | JUndefined | JNull => Throw (lit "TypeError")
  | JObject fields => Normal (lookup_field k fields)
  | _ => Normal JUndefined
  end.

(** [ToBoolean] *)
Definition truthy (v : jsval) : bool :=
  match v with
  | JUndefined | JNull => false
  | JBool b => b
  | JNumber q => negb (Qeq_bool q (0 # 1))
  | JString s => string_truthy s
  | JArray _ | JObject _ => true
  end.

(** The argument of one [fetch] call.  [body] is the value handed to
    [JSON.stringify]; the serialisation itself is the platform's. *)
Record Request := {
  url : jsstring;
  method : jsstring;
  headers : list (jsstring * jsstring);
  body : jsval
}.

(** How a [fetch] settles, as far as the components look at it: the promise
    rejects (transport failure), or it resolves to a response with its [ok]
    flag and the outcome of [response.json()] ([None] when the body is not
    JSON and that promise rejects). *)
Inductive FetchOutcome : Type :=
| Rejected
| Resolved (ok : bool) (json : option jsval).

Definition response_json (json : option jsval) : completion jsval :=
  match json with
  | Some data => Normal data
  | None => Throw (lit "SyntaxError")
  end.

End JS.

Import JS.

(* ------------------------------------------------------------------------- *)
(** ** The platform speech engine ([window.speechSynthesis])

    The engine belongs to the platform.  It is modelled after the Web Speech
    API: a queue of utterances of which the head is the one being spoken
    once it has started; [speak] appends to the queue, [cancel] empties it,
    [pause] and [resume] set and clear the paused flag and leave the queue
    alone.  By the API an utterance removed by [cancel] is told so with an
    [error] event, for which the component registers no handler, and gets
    no [end] event; some engines send [end] all the same.  Both are covered:
    [ends_on_cancel] says which engine this is, and the utterances that
    still await such an [end] are kept in [interrupted].  The engine
    delivers those events before it starts anything new. *)

Module Speech.

Record Voice := {
  name : jsstring;
  lang : jsstring
}.

(** The handlers the component attaches to an utterance, by what they do. *)
Inductive Callback : Type :=
| SetIsSpeaking (b : bool)
    (* () => setIsSpeaking(b) *)
| PauseOnWord.
    (* (event) => { if (event.name === 'word') { speechSynthesis.pause();
                      setTimeout(() => speechSynthesis.resume(), 10); } } *)

Record Utterance := {
  text : jsstring;
  voice : option Voice;          (* [None]: the platform's default voice *)
  rate : Q;
  pitch : Q;
  volume : Q;
  onboundary : option Callback;
  onstart : option Callback;
  onend : option Callback
}.

Record Synth := {
  voices : list Voice;       (* what [getVoices()] returns at the moment *)
  queue : list Utterance;
  speaking : bool;           (* the head of the queue has started *)
  paused : bool;
  ends_on_cancel : bool;
  interrupted : list Utterance
}.

Definition cancel (sy : Synth) : Synth :=
  {| voices := voices sy; queue := []; speaking := false; paused := paused sy;
     ends_on_cancel := ends_on_cancel sy;
     interrupted := if ends_on_cancel sy
                    then interrupted sy ++ queue sy
                    else interrupted sy |}.

Definition speak (u : Utterance) (sy : Synth) : Synth :=
  {| voices := voices sy; queue := queue sy ++ [u];
     speaking := speaking sy; paused := paused sy;
     ends_on_cancel := ends_on_cancel sy; interrupted := interrupted sy |}.

Definition pause (sy : Synth) : Synth :=
  {| voices := voices sy; queue := queue sy;
     speaking := speaking sy; paused := true;
     ends_on_cancel := ends_on_cancel sy; interrupted := interrupted sy |}.

Definition resume (sy : Synth) : Synth :=
  {| voices := voices sy; queue := queue sy;
     speaking := speaking sy; paused := false;
     ends_on_cancel := ends_on_cancel sy; interrupted := interrupted sy |}.

Definition set_voices (vs : list Voice) (sy : Synth) : Synth :=
  {| voices := vs; queue := queue sy;
     speaking := speaking sy; paused := paused sy;
     ends_on_cancel := ends_on_cancel sy; interrupted := interrupted sy |}.

(** The engine starts the utterance at the head of the queue. *)
Definition start_head (sy : Synth) : Synth :=
  {| voices := voices sy; queue := queue sy;
     speaking := true; paused := paused sy;
     ends_on_cancel := ends_on_cancel sy; interrupted := interrupted sy |}.

(** The utterance being spoken has come to its end and leaves the queue. *)
Definition finish_head (sy : Synth) : Synth :=
  {| voices := voices sy; queue := tl (queue sy);
     speaking := false; paused := paused sy;
     ends_on_cancel := ends_on_cancel sy; interrupted := interrupted sy |}.

(** The [end] of the oldest interrupted utterance has been delivered. *)
Definition drop_interrupted (sy : Synth) : Synth :=
  {| voices := voices sy; queue := queue sy;
     speaking := speaking sy; paused := paused sy;
     ends_on_cancel := ends_on_cancel sy; interrupted := tl (interrupted sy) |}.

(** Whether the engine may start the head of the queue. *)
Definition can_start (sy : Synth) : bool :=
  negb (speaking sy) && negb (paused sy) &&
  match interrupted sy with [] => true | _ :: _ => false end.

(** The utterance that is being spoken, if any. *)
Definition playing (sy : Synth) : option Utterance :=
  if speaking sy then hd_error (queue sy) else None.

End Speech.

(* ------------------------------------------------------------------------- *)
(** ** ChatInterface.tsx *)

Module Chat.

Inductive Role : Type := user | assistant.

(** The string a role is at run time. *)
Definition role_name (r : Role) : jsstring :=
  match r with
  | user => lit "user"
  | assistant => lit "assistant"
  end.

(** [content] is declared [string]; at run time an assistant message holds
    whatever [data.response] was. *)
Record Message := {
  role : Role;
  content : jsval
}.

(** The [useState] cells of the component. *)
Record State := {
  messages : list Message;
  input : jsstring;
  isRecording : bool;
  isLoading : bool;
  error : option jsstring;
  isSpeaking : bool
}.

Definition initial : State :=
  {| messages := []; input := []; isRecording := false; isLoading := false;
     error := None; isSpeaking := false |}.

Definition setMessages (f : list Message -> list Message) (s : State) : State :=
  {| messages := f (messages s); input := input s; isRecording := isRecording s;
     isLoading := isLoading s; error := error s; isSpeaking := isSpeaking s |}.

Definition setInput (v : jsstring) (s : State) : State :=
  {| messages := messages s; input := v; isRecording := isRecording s;
     isLoading := isLoading s; error := error s; isSpeaking := isSpeaking s |}.

Definition setIsRecording (b : bool) (s : State) : State :=
  {| messages := messages s; input := input s; isRecording := b;
     isLoading := isLoading s; error := error s; isSpeaking := isSpeaking s |}.

Definition setIsLoading (b : bool) (s : State) : State :=
  {| messages := messages s; input := input s; isRecording := isRecording s;
     isLoading := b; error := error s; isSpeaking := isSpeaking s |}.

Definition setError (e : option jsstring) (s : State) : State :=
  {| messages := messages s; input := input s; isRecording := isRecording s;
     isLoading := isLoading s; error := e; isSpeaking := isSpeaking s |}.

Definition setIsSpeaking (b : bool) (s : State) : State :=
  {| messages := messages s; input := input s; isRecording := isRecording s;
     isLoading := isLoading s; error := error s; isSpeaking := b |}.

(** What a handler does outside the component. *)
Inductive Effect : Type :=
| Fetch (r : Request)
| SetLastBotMessage (m : jsval).      (* the callback prop *)

(** [useEffect(() => { setMessages([]) }, [currentChat])]: the body of the
    effect, which React runs after the first render and after every render
    in which [currentChat] differs from the previous one. *)
Definition reset_effect (s : State) : State * list Effect :=
  (setMessages (fun _ => []) s, []).

(** The element of [conversationsNew] made from one message of the log. *)
Definition conversation_of (msg : Message) : jsval :=
  JObject [ (lit "messages",
             JArray [ JObject [ (lit "sender", JString (role_name (role msg)));
                                (lit "text", content msg) ] ]) ].

Definition ask_bot_request (log : list Message) (question : jsstring) : Request :=
  {| url := lit "http://localhost:8080/ask_bot";
     method := lit "POST";
     headers := [ (lit "Content-Type", lit "application/json") ];
     body := JObject [ (lit "conversationsNew", JArray (map conversation_of log));
                       (lit "question", JString question) ] |}.

Definition error_text : jsstring :=
  lit "An error occurred while fetching the response. Please try again.".

(** [handleSubmit] up to [await fetch(...)].  [messages] and [input] are the
    values of the render the handler belongs to, which is the current state
    when the form is submitted. *)
Definition handleSubmit_sync (s : State) : State * list Effect :=
  if negb (string_truthy (trim (input s))) then (s, [])
  else
    let userMessage := {| role := user; content := JString (input s) |} in
    let s1 := setMessages (fun _ => messages s ++ [userMessage]) s in
    let s2 := setInput [] s1 in
    let s3 := setIsLoading true s2 in
    let s4 := setError None s3 in
    (s4, [Fetch (ask_bot_request (messages s) (input s))]).

(** The [try] block from the point where [fetch] has settled up to the read
    of [data.response]; no state is written before that read. *)
Definition read_reply (o : FetchOutcome) : completion jsval :=
  match o with
  | Rejected => Throw (lit "TypeError: Failed to fetch")
  | Resolved ok json =>
      if negb ok then Throw (lit "Network response was not ok")
      else
        data <- response_json json ;;
        get_prop data (lit "response")
  end.

(** [handleSubmit] from the point where the request has settled: the rest
    of [try], then [catch], then [finally].  [s] is the state at that
    moment; the updater passed to [setMessages] reads the log from it. *)
Definition handleSubmit_resume (o : FetchOutcome) (s : State) : State * list Effect :=
  let '(s1, fx) :=
    match read_reply o with
    | Normal reply =>
        let assistantMessage := {| role := assistant; content := reply |} in
        (setMessages (fun prevMessages => prevMessages ++ [assistantMessage]) s,
         [SetLastBotMessage reply])
    | Throw _ =>
        (setError (Some error_text) s, [])
    end in
  (setIsLoading false s1, fx).

(** The outcomes on which the [try] block throws before it reaches the
    state updates: the transport fails, the status is not 2xx, the body is
    not JSON, or the body is [null]. *)
Definition request_failed (o : FetchOutcome) : Prop :=
  o = Rejected \/ (exists json, o = Resolved false json) \/
  o = Resolved true None \/ o = Resolved true (Some JNull).

(** [handleFileUpload]: logs the file name, changes nothing. *)
Definition handleFileUpload (s : State) : State := s.

Definition toggleRecording (s : State) : State :=
  setIsRecording (negb (isRecording s)) s.

Import Speech.

(** The second effect, which runs once when the component mounts:
    [loadVoices()] calls [speechSynthesis.getVoices()] and the effect then
    assigns [window.speechSynthesis.onvoiceschanged], neither behind a test
    that the platform has a speech engine.  With an engine nothing the
    component can observe changes ([loadVoices] drops the list, also when the
    platform calls it later); without one the effect throws. *)
Definition voices_effect (engine : option Synth) : completion Synth :=
  match engine with
  | Some sy => Normal sy
  | None => Throw (lit "ReferenceError: speechSynthesis is not defined")
  end.

(** The voice [speakMessage] picks from the list [getVoices()] returned. *)
Definition is_female (v : Voice) : bool :=
  includes (toLowerCase (name v)) (lit "female").

Definition pick_voice (vs : list Voice) : option Voice :=
  match find (fun v => jsstring_eqb (lang v) (lit "en-IN") && is_female v) vs with
  | Some preferredVoice => Some preferredVoice
  | None => find (fun v => startsWith (lang v) (lit "en") && is_female v) vs
  end.

(** The utterance [speakMessage] builds for [message]. *)
Definition make_utterance (vs : list Voice) (message : jsstring) : Utterance :=
  {| text := message;
     voice := pick_voice vs;
     rate := (9 # 10)%Q;
     pitch := (11 # 10)%Q;
     volume := (95 # 100)%Q;
     onboundary := Some PauseOnWord;
     onstart := Some (SetIsSpeaking true);
     onend := Some (SetIsSpeaking false) |}.

(** [speakMessage].  The second component is [window.speechSynthesis], which
    is [None] where the platform has none (a widget that got past its mount
    always has one, see [voices_effect]). *)
Definition speakMessage (message : jsstring) (st : State * option Synth)
  : State * option Synth :=
  match snd st with
  | Some sy =>
      let sy1 := cancel sy in
      let utterance := make_utterance (voices sy1) message in
      (fst st, Some (speak utterance sy1))
  | None => st
  end.

Definition stopSpeaking (st : State * option Synth) : State * option Synth :=
  match snd st with
  | Some sy => (setIsSpeaking false (fst st), Some (cancel sy))
  | None => st
  end.

(** What a handler attached to an utterance does when the engine calls it
    for an event named [event_name].  [timers] counts the pending
    [setTimeout] callbacks, each of which calls [speechSynthesis.resume()]. *)
Definition run_callback (cb : option Callback) (event_name : jsstring)
    (st : State * Synth * nat) : State * Synth * nat :=
  let '(s, sy, timers) := st in
  match cb with
  | None => st
  | Some (SetIsSpeaking b) => (setIsSpeaking b s, sy, timers)
  | Some PauseOnWord =>
      if jsstring_eqb event_name (lit "word")
      then (s, pause sy, S timers)
      else st
  end.

(** Whether the conversation (log and form) is rendered: [currentChat ? ... : ...] *)
Definition chat_rendered (currentChat : option jsstring) : bool :=
  match currentChat with
  | Some c => string_truthy c
  | None => false
  end.

End Chat.

(* ------------------------------------------------------------------------- *)
(** ** EmailModal.tsx *)

Module Email.

Record Props := {
  isOpen : bool;
  lastBotMessage : jsval
}.

Record State := {
  email : jsstring;
  sending : bool
}.

Definition initial : State := {| email := []; sending := false |}.

Definition setEmail (v : jsstring) (s : State) : State :=
  {| email := v; sending := sending s |}.

Definition setSending (b : bool) (s : State) : State :=
  {| email := email s; sending := b |}.

Inductive Effect : Type :=
| Fetch (r : Request)
| Alert (message : jsstring)
| OnClose.                              (* the callback prop *)

Definition send_email_request (to body : jsval) : Request :=
  {| url := lit "http://localhost:8080/send_email";
     method := lit "POST";
     headers := [ (lit "Content-Type", lit "application/json") ];
     body := JObject [ (lit "to", to);
                       (lit "subject", JString (lit "Police Report Summary"));
                       (lit "body", body) ] |}.

(** [handleSubmit] up to [await fetch(...)]. *)
Definition handleSubmit_sync (p : Props) (s : State) : State * list Effect :=
  (setSending true s,
   [Fetch (send_email_request (JString (email s)) (lastBotMessage p))]).

(** The [try] block once [fetch] has settled: the value is [emailData.success]
    when the block gets as far as testing it. *)
Definition read_success (o : FetchOutcome) : completion jsval :=
  match o with
  | Rejected => Throw (lit "TypeError: Failed to fetch")
  | Resolved ok json =>
      if negb ok then Throw (lit "Failed to send email")
      else
        emailData <- response_json json ;;
        get_prop emailData (lit "success")
  end.

(** [handleSubmit] from the point where the request has settled. *)
Definition handleSubmit_resume (o : FetchOutcome) (s : State) : State * list Effect :=
  let fx :=
    match read_success o with
    | Normal success =>
        if truthy success
        then [Alert (lit "Email sent successfully!"); OnClose]
        else [Alert (lit "Failed to send email. Please try again.")]
    | Throw _ => [Alert (lit "Failed to send email. Please try again.")]
    end in
  (setSending false s, fx).

(** What the component renders: nothing while [isOpen] is false, otherwise
    the form; this is the value shown in its address field. *)
Definition address_field (p : Props) (s : State) : option jsstring :=
  if negb (isOpen p) then None else Some (email s).

End Email.

(* ------------------------------------------------------------------------- *)
(** ** The widget as a whole *)

Module App.

Import Speech.

(** Modelled from the spec: the component that owns [ChatInterface] and
    [EmailModal] is missing from the sources.  It holds the active chat
    identifier (absent when no chat is selected), the cached last assistant
    message (unset if no assistant reply has arrived yet for the current
    session), which [setLastBotMessage] stores, and the visibility of the
    dialog. *)
Record Owner := {
  currentChat : option jsstring;
  lastBotMessage : option jsval;
  isOpen : bool
}.

(** Modelled from the spec: the session is reset when the active chat
    identifier changes, and the reset clears the cached last assistant
    message.  The cache is a cell of the missing owner, so the owner clears
    it as it makes [c] the active chat; emptying the log is left to the
    reset effect of [ChatInterface]. *)
Definition setCurrentChat (c : option jsstring) (o : Owner) : Owner :=
  {| currentChat := c; lastBotMessage := None; isOpen := isOpen o |}.

Definition setLastBotMessage (m : jsval) (o : Owner) : Owner :=
  {| currentChat := currentChat o; lastBotMessage := Some m; isOpen := isOpen o |}.

Definition setIsOpen (b : bool) (o : Owner) : Owner :=
  {| currentChat := currentChat o; lastBotMessage := lastBotMessage o; isOpen := b |}.

(** Modelled from the spec: the props the missing owner hands to the dialog;
    with no cached message the body is empty. *)
Definition modal_props (o : Owner) : Email.Props :=
  {| Email.isOpen := isOpen o;
     Email.lastBotMessage :=
       match lastBotMessage o with
       | Some m => m
       | None => JString []
       end |}.

Record World := {
  chat : Chat.State;
  modal : Email.State;       (* the cells of the dialog; initial while closed *)
  owner : Owner;
  synth : option Synth;      (* [window.speechSynthesis], if the platform has it *)
  timers : nat;              (* pending [setTimeout] callbacks *)
  asking : nat;              (* /ask_bot requests that have not settled *)
  mailing : nat;             (* /send_email requests of the dialog as mounted
                                now that have not settled *)
  orphaned : nat;            (* /send_email requests of a dialog closed since
                                that have not settled *)
  sent : list Request;       (* every request issued so far, oldest first *)
  alerts : list jsstring     (* every [alert] shown so far, oldest first *)
}.

(** The platforms the widget runs on.  Each has a speech engine: without
    one the widget does not survive its mount, see [mount]. *)
Inductive Platform : Type :=
| WithSpeech (ends_on_cancel : bool).

Definition engine_of (p : Platform) : Synth :=
  match p with
  | WithSpeech b =>
      {| voices := []; queue := []; speaking := false;
         paused := false; ends_on_cancel := b; interrupted := [] |}
  end.

(** The widget once its components are mounted on the engine [sy]. *)
Definition mounted (sy : Synth) : World :=
  {| chat := Chat.initial;
     modal := Email.initial;
     owner := {| currentChat := None; lastBotMessage := None; isOpen := false |};
     synth := Some sy;
     timers := 0; asking := 0; mailing := 0; orphaned := 0;
     sent := []; alerts := [] |}.

(** Mounting the widget on a platform whose [window.speechSynthesis] is
    [engine].  The reset effect finds the log empty; the voices effect
    follows.  An effect that throws takes the widget down: nothing is
    rendered and no event reaches a handler. *)
Definition mount (engine : option Synth) : completion World :=
  sy <- Chat.voices_effect engine ;;
  Normal (mounted sy).

(** The widget as [mount] leaves it on platform [p]. *)
Definition init (p : Platform) : World := mounted (engine_of p).

Definition with_chat (c : Chat.State) (w : World) : World :=
  {| chat := c; modal := modal w; owner := owner w; synth := synth w;
     timers := timers w; asking := asking w; mailing := mailing w; orphaned := orphaned w;
     sent := sent w; alerts := alerts w |}.

Definition with_modal (m : Email.State) (w : World) : World :=
  {| chat := chat w; modal := m; owner := owner w; synth := synth w;
     timers := timers w; asking := asking w; mailing := mailing w; orphaned := orphaned w;
     sent := sent w; alerts := alerts w |}.

Definition with_owner (o : Owner) (w : World) : World :=
  {| chat := chat w; modal := modal w; owner := o; synth := synth w;
     timers := timers w; asking := asking w; mailing := mailing w; orphaned := orphaned w;
     sent := sent w; alerts := alerts w |}.

Definition with_synth (sy : option Synth) (w : World) : World :=
  {| chat := chat w; modal := modal w; owner := owner w; synth := sy;
     timers := timers w; asking := asking w; mailing := mailing w; orphaned := orphaned w;
     sent := sent w; alerts := alerts w |}.

Definition with_timers (n : nat) (w : World) : World :=
  {| chat := chat w; modal := modal w; owner := owner w; synth := synth w;
     timers := n; asking := asking w; mailing := mailing w; orphaned := orphaned w;
     sent := sent w; alerts := alerts w |}.

Definition with_asking (n : nat) (w : World) : World :=
  {| chat := chat w; modal := modal w; owner := owner w; synth := synth w;
     timers := timers w; asking := n; mailing := mailing w; orphaned := orphaned w;
     sent := sent w; alerts := alerts w |}.

Definition with_mailing (n : nat) (w : World) : World :=
  {| chat := chat w; modal := modal w; owner := owner w; synth := synth w;
     timers := timers w; asking := asking w; mailing := n; orphaned := orphaned w;
     sent := sent w; alerts := alerts w |}.

Definition with_orphaned (n : nat) (w : World) : World :=
  {| chat := chat w; modal := modal w; owner := owner w; synth := synth w;
     timers := timers w; asking := asking w; mailing := mailing w; orphaned := n;
     sent := sent w; alerts := alerts w |}.

Definition with_sent (l : list Request) (w : World) : World :=
  {| chat := chat w; modal := modal w; owner := owner w; synth := synth w;
     timers := timers w; asking := asking w; mailing := mailing w; orphaned := orphaned w;
     sent := l; alerts := alerts w |}.

Definition with_alerts (l : list jsstring) (w : World) : World :=
  {| chat := chat w; modal := modal w; owner := owner w; synth := synth w;
     timers := timers w; asking := asking w; mailing := mailing w; orphaned := orphaned w;
     sent := sent w; alerts := l |}.

(** Carrying out what a handler of [ChatInterface] asked for. *)
Definition chat_effect (w : World) (e : Chat.Effect) : World :=
  match e with
  | Chat.Fetch r => with_asking (S (asking w)) (with_sent (sent w ++ [r]) w)
  | Chat.SetLastBotMessage m => with_owner (setLastBotMessage m (owner w)) w
  end.

(** Modelled from the spec: closing the dialog hides it and discards any
    partially entered address.  The address is a cell of [EmailModal] that
    no prop reaches, so the missing owner can only discard it by unmounting
    the dialog: its cells are gone, the next opening mounts it with the
    initial ones, and the requests it has out are left without a dialog. *)
Definition close_dialog (w : World) : World :=
  with_orphaned (orphaned w + mailing w)
    (with_mailing 0
       (with_modal Email.initial
          (with_owner (setIsOpen false (owner w)) w))).

(** Carrying out what a handler of [EmailModal] asked for; [onClose] is the
    owner's closing of the dialog. *)
Definition modal_effect (w : World) (e : Email.Effect) : World :=
  match e with
  | Email.Fetch r => with_mailing (S (mailing w)) (with_sent (sent w ++ [r]) w)
  | Email.Alert m => with_alerts (alerts w ++ [m]) w
  | Email.OnClose => close_dialog w
  end.

Definition chat_handler (h : Chat.State -> Chat.State * list Chat.Effect)
    (w : World) : World :=
  let '(c, fx) := h (chat w) in
  fold_left chat_effect fx (with_chat c w).

Definition modal_handler (h : Email.State -> Email.State * list Email.Effect)
    (w : World) : World :=
  let '(m, fx) := h (modal w) in
  fold_left modal_effect fx (with_modal m w).

Definition speech_handler
    (h : Chat.State * option Synth -> Chat.State * option Synth)
    (w : World) : World :=
  let '(c, sy) := h (chat w, synth w) in
  with_synth sy (with_chat c w).

(** The engine calls the handler [pick] of the utterance at the head of the
    queue, after changing its own state with [engine]. *)
Definition engine_event (engine : Synth -> Synth)
    (pick : Utterance -> option Callback) (event_name : jsstring)
    (sy : Synth) (u : Utterance) (w : World) : World :=
  let '(c, sy', n) :=
    Chat.run_callback (pick u) event_name (chat w, engine sy, timers w) in
  with_timers n (with_synth (Some sy') (with_chat c w)).

Definition chat_eqb (a b : option jsstring) : bool :=
  match a, b with
  | None, None => true
  | Some x, Some y => jsstring_eqb x y
  | _, _ => false
  end.

(** The operations of the session, the playback controller and the dialog,
    as the specification names them. *)

(** Modelled from the spec: the missing owner makes [c] the active chat and
    resets what it holds of the session.  What follows is the component's
    own: its reset effect runs when [c] differs from the identifier of the
    previous render. *)
Definition select_chat (c : option jsstring) (w : World) : World :=
  if chat_eqb c (currentChat (owner w)) then w
  else chat_handler Chat.reset_effect (with_owner (setCurrentChat c (owner w)) w).

Definition submit (w : World) : World :=
  chat_handler Chat.handleSubmit_sync w.

(** One outstanding /ask_bot request settles. *)
Definition ask_reply (o : FetchOutcome) (w : World) : World :=
  match asking w with
  | 0 => w
  | S n => chat_handler (Chat.handleSubmit_resume o) (with_asking n w)
  end.

Definition speak (message : jsstring) (w : World) : World :=
  speech_handler (Chat.speakMessage message) w.

Definition stop (w : World) : World :=
  speech_handler Chat.stopSpeaking w.

(** Modelled from the spec: opening the dialog is an operation of the
    missing owner, a toggle of the visibility it passes down as [isOpen]. *)
Definition open_dialog (w : World) : World :=
  with_owner (setIsOpen true (owner w)) w.

Definition enter_address (v : jsstring) (w : World) : World :=
  with_modal (Email.setEmail v (modal w)) w.

Definition dispatch (w : World) : World :=
  modal_handler (Email.handleSubmit_sync (modal_props (owner w))) w.

Definition mail_reply (o : FetchOutcome) (w : World) : World :=
  match mailing w with
  | 0 => w
  | S n => modal_handler (Email.handleSubmit_resume o) (with_mailing n w)
  end.

(** A /send_email request settles whose dialog has been closed since.  The
    continuation runs all the same: what it writes to the cells of that
    dialog is lost with them, its alert and its call of [onClose] are
    not. *)
Definition orphan_reply (o : FetchOutcome) (w : World) : World :=
  match orphaned w with
  | 0 => w
  | S n =>
      fold_left modal_effect
        (snd (Email.handleSubmit_resume o Email.initial))
        (with_orphaned n w)
  end.

(** Everything that can happen to the widget. *)
Inductive Event : Type :=
| SelectChat (c : option jsstring)
| TypeInput (v : jsstring)              (* onChange of the text input *)
| Submit                                (* onSubmit of the form *)
| AskReply (o : FetchOutcome)
| UploadFile
| ToggleRecording
| Speak (message : jsstring)            (* the button next to a message *)
| Stop
| VoicesChanged (vs : list Voice)
| SynthStart
| SynthBoundary (event_name : jsstring)
| SynthEnd
| SynthInterruptedEnd                   (* [end] of a cancelled utterance *)
| TimerFires
| OpenDialog
| CloseDialog
| TypeAddress (v : jsstring)
| Dispatch                              (* onSubmit of the dialog's form *)
| MailReply (o : FetchOutcome)
| OrphanMailReply (o : FetchOutcome).

(** One event.  An event that cannot happen in [w] (a control that is not
    rendered, a request that was never issued, an engine event with nothing
    in the queue) leaves [w] as it is. *)
Definition step (w : World) (e : Event) : World :=
  let shown := Chat.chat_rendered (currentChat (owner w)) in
  match e with
  | SelectChat c => select_chat c w
  | TypeInput v =>
      if shown then with_chat (Chat.setInput v (chat w)) w else w
  | Submit => if shown then submit w else w
  | AskReply o => ask_reply o w
  | UploadFile =>
      if shown then with_chat (Chat.handleFileUpload (chat w)) w else w
  | ToggleRecording =>
      if shown then with_chat (Chat.toggleRecording (chat w)) w else w
  | Speak message => if shown then speak message w else w
  | Stop => stop w
  | VoicesChanged vs =>
      match synth w with
      | Some sy => with_synth (Some (set_voices vs sy)) w
      | None => w
      end
  | SynthStart =>
      match synth w with
      | Some sy =>
          match queue sy with
          | u :: _ =>
              if can_start sy
              then engine_event start_head onstart (lit "start") sy u w
              else w
          | [] => w
          end
      | None => w
      end
  | SynthBoundary event_name =>
      match synth w with
      | Some sy =>
          match queue sy with
          | u :: _ =>
              if speaking sy && negb (paused sy)
              then engine_event (fun x => x) onboundary event_name sy u w
              else w
          | [] => w
          end
      | None => w
      end
  | SynthEnd =>
      match synth w with
      | Some sy =>
          match queue sy with
          | u :: _ =>
              if speaking sy && negb (paused sy)
              then engine_event finish_head onend (lit "end") sy u w
              else w
          | [] => w
          end
      | None => w
      end
  | SynthInterruptedEnd =>
      match synth w with
      | Some sy =>
          match interrupted sy with
          | u :: _ => engine_event drop_interrupted onend (lit "end") sy u w
          | [] => w
          end
      | None => w
      end
  | TimerFires =>
      match timers w, synth w with
      | S n, Some sy => with_timers n (with_synth (Some (resume sy)) w)
      | _, _ => w
      end
  | OpenDialog => open_dialog w
  | CloseDialog => close_dialog w
  | TypeAddress v => if isOpen (owner w) then enter_address v w else w
  | Dispatch => if isOpen (owner w) then dispatch w else w
  | MailReply o => mail_reply o w
  | OrphanMailReply o => orphan_reply o w
  end.

Definition run (w : World) (evs : list Event) : World := fold_left step evs w.

(** The states the widget can be in. *)
Definition reachable (w : World) : Prop :=
  exists p evs, w = run (init p) evs.

(** The utterances the engine holds. *)
Definition utterances (w : World) : list Utterance :=
  match synth w with
  | Some sy => queue sy
  | None => []
  end.

(** The utterance being spoken. *)
Definition now_playing (w : World) : option Utterance :=
  match synth w with
  | Some sy => playing sy
  | None => None
  end.

(** Whether the engine is paused at the moment. *)
Definition engine_paused (w : World) : bool :=
  match synth w with
  | Some sy => paused sy
  | None => false
  end.

(** An utterance as [speakMessage] builds them. *)
Definition made_by_speakMessage (u : Utterance) : Prop :=
  exists vs message, u = Chat.make_utterance vs message.

(** What holds of the engine and the speaking flag in every state the widget
    can be in: the queue holds at most one utterance, every utterance the
    engine knows of was built by [speakMessage], and while the head is being
    spoken the flag is set and no interrupted utterance awaits its [end];
    where the platform has no engine the flag is never set. *)
Definition playback_invariant (w : World) : Prop :=
  match synth w with
  | Some sy =>
      length (queue sy) <= 1 /\
      Forall made_by_speakMessage (queue sy) /\
      Forall made_by_speakMessage (interrupted sy) /\
      (speaking sy = true ->
         queue sy <> [] /\ interrupted sy = [] /\ Chat.isSpeaking (chat w) = true)
  | None => Chat.isSpeaking (chat w) = false
  end.

(** *** Sentences of the specification, as they are written

    Each is stated here for given inputs, to be compared with what the code
    does. *)

(** "A response arriving after the session has been reset is discarded": the
    reply [o] that settles after the switch to chat [c] leaves the log and
    the cached last assistant message as the reset left them. *)
Definition late_reply_discarded (w : World) (c : option jsstring)
    (o : FetchOutcome) : Prop :=
  let fresh := select_chat c w in
  let late := ask_reply o fresh in
  Chat.messages (chat late) = Chat.messages (chat fresh) /\
  lastBotMessage (owner late) = lastBotMessage (owner fresh).

(** "A 2xx response whose body lacks the response field is a failure": the
    body [{ fields }] is handled as a transport failure is, with no
    assistant message appended and no last assistant message recorded. *)
Definition missing_field_is_failure (w : World)
    (fields : list (jsstring * jsval)) : Prop :=
  let after := ask_reply (Resolved true (Some (JObject fields))) w in
  after = ask_reply Rejected w /\
  Chat.messages (chat after) = Chat.messages (chat w) /\
  lastBotMessage (owner after) = lastBotMessage (owner w).

(** "The log grows by exactly 1 (user only) on backend failure", for a
    submit answered by [o]. *)
Definition failure_adds_one (w : World) (o : FetchOutcome) : Prop :=
  length (Chat.messages (chat (ask_reply o (submit w))))
    = length (Chat.messages (chat w)) + 1.

(** Worlds and inputs used in examples. *)
Definition chat_1 : option jsstring := Some (lit "chat-1").
Definition chat_2 : option jsstring := Some (lit "chat-2").

Definition reply_body (answer : string) : FetchOutcome :=
  Resolved true (Some (JObject [ (lit "response", JString (lit answer)) ])).

(** A chat is selected, "hello" is typed and submitted, and the request is
    still on its way. *)
Definition awaiting_reply : World :=
  run (init (WithSpeech false)) [ SelectChat chat_1; TypeInput (lit "hello"); Submit ].

(** The same, with the reply "hi there" received. *)
Definition one_exchange : World :=
  run awaiting_reply [ AskReply (reply_body "hi there") ].

(** The same, with the next question typed and not yet submitted. *)
Definition question_typed : World :=
  run one_exchange [ TypeInput (lit "what now?") ].

End App.

(* ------------------------------------------------------------------------- *)
(** ** What the widget keeps true

    Predicates on voices, messages, requests and whole states of the widget,
    for the properties of the second half of the development. *)

Module Keeps.

Import Speech.

(** The two tests [speakMessage] passes to [voices.find], in the order it
    tries them. *)
Definition preferred (v : Voice) : bool :=
  jsstring_eqb (lang v) (lit "en-IN") && Chat.is_female v.

Definition english_female (v : Voice) : bool :=
  startsWith (lang v) (lit "en") && Chat.is_female v.

Definition is_assistant (m : Chat.Message) : bool :=
  match Chat.role m with
  | Chat.assistant => true
  | Chat.user => false
  end.

(** The content of the assistant message that is last in the log. *)
Definition last_assistant (log : list Chat.Message) : option jsval :=
  option_map Chat.content (find is_assistant (rev log)).

(** A user turn holds the text that was typed, and that text is not blank. *)
Definition typed_text (m : Chat.Message) : Prop :=
  Chat.role m = Chat.user ->
  exists t, Chat.content m = JString t /\ forallb is_white_space t = false.

(** A request as the widget makes them: a JSON POST to one of the two
    endpoints. *)
Definition to_backend (r : Request) : Prop :=
  method r = lit "POST" /\
  headers r = [ (lit "Content-Type", lit "application/json") ] /\
  (url r = lit "http://localhost:8080/ask_bot" \/
   url r = lit "http://localhost:8080/send_email").

(** The backend acknowledges the email: status 2xx and a body whose
    [success] is truthy. *)
Definition acknowledged (o : FetchOutcome) : Prop :=
  exists data v,
    o = Resolved true (Some data) /\
    get_prop data (lit "success") = Normal v /\
    truthy v = true.

(** A busy flag is only ever set while a request of its kind is out. *)
Definition busy_flags_backed (w : App.World) : Prop :=
  (Chat.isLoading (App.chat w) = true -> 0 < App.asking w) /\
  (Email.sending (App.modal w) = true -> 0 < App.mailing w).

(** A paused engine has a [resume] scheduled. *)
Definition pause_backed (w : App.World) : Prop :=
  App.engine_paused w = true -> 0 < App.timers w.

(** The cached message is that of the last assistant turn on display. *)
Definition cache_follows_log (w : App.World) : Prop :=
  forall m,
    last_assistant (Chat.messages (App.chat w)) = Some m ->
    App.lastBotMessage (App.owner w) = Some m.

(** A word boundary has just paused playback of "hi there". *)
Definition paused_at_word : App.World :=
  App.run (App.init (App.WithSpeech false))
    [ App.SelectChat App.chat_1; App.Speak (lit "hi there"); App.SynthStart;
      App.SynthBoundary (lit "word") ].

(** A catalogue with one voice of each kind. *)
Definition sample_voices : list Voice :=
  [ {| name := lit "Google Hindi"; lang := lit "hi-IN" |};
    {| name := lit "Google UK English Female"; lang := lit "en-GB" |};
    {| name := lit "Veena FEMALE"; lang := lit "en-IN" |} ].

End Keeps.

(* ------------------------------------------------------------------------- *)
(** * Properties *)

Import Speech Chat App.

(** Unfolds one event of the widget down to the cells it writes and splits
    on every test on the way. *)
Ltac by_cases_of_step :=
  unfold step, select_chat, submit, ask_reply, speak, stop, open_dialog,
    enter_address, dispatch, mail_reply, orphan_reply, chat_handler,
    modal_handler, speech_handler, engine_event, run_callback,
    handleSubmit_sync, handleSubmit_resume, Email.handleSubmit_sync,
    Email.handleSubmit_resume, reset_effect, speakMessage, stopSpeaking,
    toggleRecording, handleFileUpload;
  cbn in *;
  repeat (match goal with
          | |- context [match ?x with _ => _ end] =>
              lazymatch x with
              | context [match _ with _ => _ end] => fail
              | _ => destruct x eqn:?
              end
          end;
          cbn in *);
  repeat match goal with
         | E : ?x = _, H : context [match ?x with _ => _ end] |- _ =>
             rewrite E in H
         | E : Some _ = Some _ |- _ => injection E as E; subst
         end;
  cbn in *.

(** ** Strings *)

Lemma jsstring_eqb_eq (a b : jsstring) : jsstring_eqb a b = true <-> a = b.
Proof.
  revert b. induction a as [|x a IH]; intros [|y b]; simpl;
    try (split; congruence).
  rewrite andb_true_iff, N.eqb_eq, IH. split.
  - intros [-> ->]. reflexivity.
  - intros H. injection H as -> ->. split; reflexivity.
Qed.

Lemma jsstring_eqb_refl (a : jsstring) : jsstring_eqb a a = true.
Proof. now apply jsstring_eqb_eq. Qed.

Lemma string_truthy_nonempty (s : jsstring) : string_truthy s = true <-> s <> [].
Proof. destruct s; simpl; split; congruence. Qed.

Lemma string_truthy_empty (s : jsstring) : string_truthy s = false <-> s = [].
Proof. destruct s; simpl; split; congruence. Qed.

Lemma trim_start_nil_iff (s : jsstring) :
  trim_start s = [] <-> forallb is_white_space s = true.
Proof.
  induction s as [|c rest IH]; simpl.
  - tauto.
  - destruct (is_white_space c); simpl.
    + exact IH.
    + split; discriminate.
Qed.

Lemma forallb_rev {A} (f : A -> bool) (l : list A) :
  forallb f (rev l) = forallb f l.
Proof.
  induction l as [|x l IH]; simpl; [reflexivity|].
  rewrite forallb_app, IH. simpl. rewrite andb_true_r. apply andb_comm.
Qed.

Lemma trim_start_blank_or_kept (s : jsstring) :
  trim_start s = [] \/ forallb is_white_space (trim_start s) = false.
Proof.
  induction s as [|c rest IH]; simpl; [now left|].
  destruct (is_white_space c) eqn:E; [exact IH|].
  right. simpl. now rewrite E.
Qed.

(** [trim] leaves nothing exactly when the text is empty or white space
    only. *)
Lemma trim_nil_iff (s : jsstring) :
  trim s = [] <-> forallb is_white_space s = true.
Proof.
  unfold trim, trim_end. split.
  - intros H.
    assert (H1 : trim_start (rev (trim_start s)) = []).
    { destruct (trim_start (rev (trim_start s))) as [|x l] eqn:E; [reflexivity|].
      simpl in H. destruct (rev l); discriminate H. }
    apply trim_start_nil_iff in H1. rewrite forallb_rev in H1.
    destruct (trim_start_blank_or_kept s) as [H2|H2].
    + now apply trim_start_nil_iff.
    + congruence.
  - intros H. apply trim_start_nil_iff in H. rewrite H. reflexivity.
Qed.

Example trim_blank : trim (lit "   ") = [] /\ trim (lit "") = [].
Proof. split; reflexivity. Qed.

Example trim_both_ends : trim (lit "  what now? ") = lit "what now?".
Proof. reflexivity. Qed.

Lemma lookup_field_absent (k : jsstring) (fields : list (jsstring * jsval)) :
  ~ In k (map fst fields) -> lookup_field k fields = JUndefined.
Proof.
  induction fields as [|[k' v] rest IH]; simpl; intros H; [reflexivity|].
  destruct (jsstring_eqb k k') eqn:E.
  - apply jsstring_eqb_eq in E. subst. tauto.
  - apply IH. tauto.
Qed.

(** ** The submit handler, one half at a time *)

Lemma handleSubmit_sync_blank (s : Chat.State) :
  trim (input s) = [] -> handleSubmit_sync s = (s, []).
Proof.
  intros H. unfold handleSubmit_sync. rewrite H. reflexivity.
Qed.

Lemma handleSubmit_sync_text (s : Chat.State) :
  trim (input s) <> [] ->
  handleSubmit_sync s =
    ({| messages := messages s ++ [ {| role := user; content := JString (input s) |} ];
        input := []; isRecording := isRecording s; isLoading := true;
        error := None; isSpeaking := isSpeaking s |},
     [Chat.Fetch (ask_bot_request (messages s) (input s))]).
Proof.
  intros H. apply string_truthy_nonempty in H.
  unfold handleSubmit_sync. rewrite H. reflexivity.
Qed.

Lemma handleSubmit_resume_reply (o : FetchOutcome) (reply : jsval) (s : Chat.State) :
  read_reply o = Normal reply ->
  handleSubmit_resume o s =
    ({| messages := messages s ++ [ {| role := assistant; content := reply |} ];
        input := input s; isRecording := isRecording s; isLoading := false;
        error := error s; isSpeaking := isSpeaking s |},
     [SetLastBotMessage reply]).
Proof.
  intros H. unfold handleSubmit_resume. rewrite H. reflexivity.
Qed.

Lemma handleSubmit_resume_throw (o : FetchOutcome) (m : jsstring) (s : Chat.State) :
  read_reply o = Throw m ->
  handleSubmit_resume o s =
    ({| messages := messages s;
        input := input s; isRecording := isRecording s; isLoading := false;
        error := Some error_text; isSpeaking := isSpeaking s |},
     []).
Proof.
  intros H. unfold handleSubmit_resume. rewrite H. reflexivity.
Qed.

Lemma read_reply_failed (o : FetchOutcome) :
  request_failed o -> exists m, read_reply o = Throw m.
Proof.
  intros [H|[[json H]|[H|H]]]; subst; simpl; eauto.
Qed.

Lemma read_reply_ok (data reply : jsval) :
  get_prop data (lit "response") = Normal reply ->
  read_reply (Resolved true (Some data)) = Normal reply.
Proof. intros H. simpl. exact H. Qed.

(** ** Submission *)

Lemma with_chat_same (w : World) : with_chat (chat w) w = w.
Proof. destruct w; reflexivity. Qed.

Lemma submit_blank (w : World) :
  trim (input (chat w)) = [] -> submit w = w.
Proof.
  intros H. unfold submit, chat_handler.
  rewrite (handleSubmit_sync_blank _ H). simpl. apply with_chat_same.
Qed.

Lemma submit_text (w : World) :
  trim (input (chat w)) <> [] ->
  submit w =
    with_asking (S (asking w))
      (with_sent (sent w ++ [ask_bot_request (messages (chat w)) (input (chat w))])
         (with_chat (fst (handleSubmit_sync (chat w))) w)).
Proof.
  intros H. unfold submit, chat_handler.
  rewrite (handleSubmit_sync_text _ H). reflexivity.
Qed.

Lemma ask_reply_success (o : FetchOutcome) (reply : jsval) (w : World) (n : nat) :
  asking w = S n ->
  read_reply o = Normal reply ->
  ask_reply o w =
    with_owner (setLastBotMessage reply (owner w))
      (with_chat (fst (handleSubmit_resume o (chat w))) (with_asking n w)).
Proof.
  intros Hn H. unfold ask_reply, chat_handler. rewrite Hn.
  cbn [chat with_asking]. rewrite (handleSubmit_resume_reply _ _ _ H). reflexivity.
Qed.

Lemma ask_reply_failure (o : FetchOutcome) (m : jsstring) (w : World) (n : nat) :
  asking w = S n ->
  read_reply o = Throw m ->
  ask_reply o w =
    with_chat (fst (handleSubmit_resume o (chat w))) (with_asking n w).
Proof.
  intros Hn H. unfold ask_reply, chat_handler. rewrite Hn.
  cbn [chat with_asking]. rewrite (handleSubmit_resume_throw _ _ _ H). reflexivity.
Qed.

Lemma accepted_reply_after_submit (w : World) (data reply : jsval) :
  trim (input (chat w)) <> [] ->
  get_prop data (lit "response") = Normal reply ->
  messages (chat (ask_reply (Resolved true (Some data)) (submit w)))
    = messages (chat w) ++
      [ {| role := user; content := JString (input (chat w)) |};
        {| role := assistant; content := reply |} ].
Proof.
  intros Htext Hreply. apply read_reply_ok in Hreply.
  rewrite (submit_text w Htext), (handleSubmit_sync_text _ Htext). cbn [fst].
  erewrite ask_reply_success; [| reflexivity | exact Hreply].
  rewrite (handleSubmit_resume_reply _ _ _ Hreply). cbn.
  now rewrite <- app_assoc.
Qed.

Lemma failed_reply_after_submit (w : World) (o : FetchOutcome) :
  trim (input (chat w)) <> [] ->
  request_failed o ->
  messages (chat (ask_reply o (submit w)))
    = messages (chat w) ++
      [ {| role := user; content := JString (input (chat w)) |} ].
Proof.
  intros Htext Hfail. destruct (read_reply_failed o Hfail) as [m Hm].
  rewrite (submit_text w Htext), (handleSubmit_sync_text _ Htext). cbn [fst].
  erewrite ask_reply_failure; [| reflexivity | exact Hm].
  rewrite (handleSubmit_resume_throw _ _ _ Hm). reflexivity.
Qed.

(** C5, as stated, fails: with two messages in the log, "what now?" is
    submitted and answered with status 200 and the body [{}], which the
    specification counts as a failure of the backend.  The log grows to
    four messages, not three. *)
Lemma missing_field_adds_two :
  let o := Resolved true (Some (JObject [])) in
  trim (input (chat question_typed)) <> [] /\
  length (messages (chat question_typed)) = 2 /\
  length (messages (chat (ask_reply o (submit question_typed)))) = 4 /\
  ~ failure_adds_one question_typed o.
Proof.
  cbv zeta. split; [vm_compute; discriminate|].
  split; [reflexivity|]. split; [reflexivity|].
  intros H. vm_compute in H. discriminate H.
Qed.

(** C5, amended.  A submit with text that is not blank sends one request
    and makes the log longer by exactly two messages, the user's and then
    the assistant's, when the status is 2xx and the body is JSON other than
    [null], a body without the [response] field included; and by exactly
    one, the user's, when the transport fails, the status is not 2xx, or
    the body is not JSON or is [null].  A submit with empty or
    white-space-only text changes nothing at all, so the log keeps its
    length and no request is sent. *)
Theorem submit_log_growth (w : World) (o : FetchOutcome) :
  let log := messages (chat w) in
  let question := input (chat w) in
  let userMessage := {| role := user; content := JString question |} in
  let after := messages (chat (ask_reply o (submit w))) in
  (trim question <> [] ->
     length (sent (submit w)) = S (length (sent w)) /\
     (forall data reply,
        o = Resolved true (Some data) ->
        get_prop data (lit "response") = Normal reply ->
        after = log ++ [userMessage; {| role := assistant; content := reply |}] /\
        length after = length log + 2) /\
     (forall fields,
        o = Resolved true (Some (JObject fields)) ->
        ~ In (lit "response") (map fst fields) ->
        after = log ++ [userMessage; {| role := assistant; content := JUndefined |}] /\
        length after = length log + 2) /\
     (request_failed o ->
        after = log ++ [userMessage] /\
        length after = length log + 1)) /\
  (trim question = [] ->
     submit w = w /\
     length (messages (chat (submit w))) = length log /\
     sent (submit w) = sent w).
Proof.
  cbv zeta. split.
  - intros Htext. split; [| split; [| split]].
    + rewrite (submit_text w Htext). cbn. rewrite length_app. simpl. lia.
    + intros data reply -> Hreply.
      rewrite (accepted_reply_after_submit w data reply Htext Hreply).
      split; [reflexivity|]. rewrite length_app. simpl. lia.
    + intros fields -> Habsent.
      rewrite (accepted_reply_after_submit w (JObject fields) JUndefined Htext).
      * split; [reflexivity|]. rewrite length_app. simpl. lia.
      * simpl. now rewrite (lookup_field_absent _ _ Habsent).
    + intros Hfail. rewrite (failed_reply_after_submit w o Htext Hfail).
      split; [reflexivity|]. rewrite length_app. simpl. lia.
  - intros Hblank. rewrite (submit_blank w Hblank). auto.
Qed.

Lemma question_typed_not_blank : trim (input (chat question_typed)) <> [].
Proof. vm_compute. discriminate. Qed.

Lemma submit_log_growth_witness :
  trim (input (chat question_typed)) <> [] /\
  length (messages (chat (ask_reply (reply_body "file a report")
                            (submit question_typed)))) = 4 /\
  ~ In (lit "response") (map fst (@nil (jsstring * jsval))) /\
  length (messages (chat (ask_reply (Resolved true (Some (JObject [])))
                            (submit question_typed)))) = 4 /\
  length (messages (chat (ask_reply Rejected (submit question_typed)))) = 3 /\
  trim (input (chat one_exchange)) = [] /\
  submit one_exchange = one_exchange.
Proof.
  split; [exact question_typed_not_blank|].
  split.
  { destruct (submit_log_growth question_typed (reply_body "file a report"))
      as [Htext _].
    destruct (Htext question_typed_not_blank) as (_ & Hok & _).
    exact (proj2 (Hok _ _ eq_refl eq_refl)). }
  split; [intros []|].
  split.
  { destruct (submit_log_growth question_typed (Resolved true (Some (JObject []))))
      as [Htext _].
    destruct (Htext question_typed_not_blank) as (_ & _ & Hmissing & _).
    exact (proj2 (Hmissing [] eq_refl (fun H => H))). }
  split.
  { destruct (submit_log_growth question_typed Rejected) as [Htext _].
    destruct (Htext question_typed_not_blank) as (_ & _ & _ & Hfail).
    exact (proj2 (Hfail (or_introl eq_refl))). }
  split; [reflexivity|].
  destruct (submit_log_growth one_exchange Rejected) as [_ Hblank].
  exact (proj1 (Hblank eq_refl)).
Defined.

(** The scenario of the specification: after the exchange "hello" / "hi
    there", "what now?" is submitted and answered with "file a report". *)
Example scenario_one_prior_exchange :
  let w := run one_exchange
             [ TypeInput (lit "what now?"); Submit;
               AskReply (reply_body "file a report") ] in
  map content (messages (chat w))
    = [ JString (lit "hello"); JString (lit "hi there");
        JString (lit "what now?"); JString (lit "file a report") ] /\
  lastBotMessage (owner w) = Some (JString (lit "file a report")).
Proof. split; reflexivity. Qed.


(** C6.  When the request of a submit fails, by a transport error or by a
    status that is not 2xx, the error shown to the user is set, the loading
    flag is cleared, no assistant message is appended, and the user's
    message, appended when the submit was made, is still in the log. *)
Theorem failed_submit_keeps_user_message (w : World) (o : FetchOutcome) :
  trim (input (chat w)) <> [] ->
  o = Rejected \/ (exists json, o = Resolved false json) ->
  let userMessage := {| role := user; content := JString (input (chat w)) |} in
  let submitted := submit w in
  let failed := ask_reply o submitted in
  messages (chat submitted) = messages (chat w) ++ [userMessage] /\
  isLoading (chat submitted) = true /\
  messages (chat failed) = messages (chat w) ++ [userMessage] /\
  error (chat failed) =
    Some (lit "An error occurred while fetching the response. Please try again.") /\
  isLoading (chat failed) = false /\
  lastBotMessage (owner failed) = lastBotMessage (owner w).
Proof.
  intros Htext Ho. cbv zeta.
  assert (Hfail : request_failed o) by (unfold request_failed; tauto).
  destruct (read_reply_failed o Hfail) as [m Hm].
  rewrite (submit_text w Htext), (handleSubmit_sync_text _ Htext). cbn [fst].
  erewrite ask_reply_failure; [| reflexivity | exact Hm].
  rewrite (handleSubmit_resume_throw _ _ _ Hm). cbn.
  repeat split; reflexivity.
Qed.

Lemma failed_submit_keeps_user_message_witness :
  trim (input (chat question_typed)) <> [] /\
  (Resolved false None = Rejected \/
   exists json, Resolved false None = Resolved false json) /\
  error (chat (ask_reply (Resolved false None) (submit question_typed)))
    = Some (lit "An error occurred while fetching the response. Please try again.") /\
  length (messages (chat (ask_reply (Resolved false None) (submit question_typed)))) = 3.
Proof.
  assert (Hstatus : Resolved false None = Rejected \/
                    exists json, Resolved false None = Resolved false json).
  { right. exists None. reflexivity. }
  split; [exact question_typed_not_blank|]. split; [exact Hstatus|].
  destruct (failed_submit_keeps_user_message question_typed (Resolved false None)
              question_typed_not_blank Hstatus) as (_ & _ & Hlog & Herr & _).
  split; [exact Herr|]. rewrite Hlog. reflexivity.
Defined.

(** C7.  The request of a submit carries, under [conversationsNew], one
    wrapper object [{ messages: [{ sender, text }] }] for each message of
    the log as it was before the submit, in order, the user turn appended by
    this submit not among them, and the text of the question again under
    [question]. *)
Theorem ask_bot_request_carries_prior_log (w : World) :
  trim (input (chat w)) <> [] ->
  let log := messages (chat w) in
  let wrapper (msg : Message) :=
    JObject [ (lit "messages",
               JArray [ JObject [ (lit "sender",
                                   JString match role msg with
                                           | user => lit "user"
                                           | assistant => lit "assistant"
                                           end);
                                  (lit "text", content msg) ] ]) ] in
  sent (submit w) =
    sent w ++
    [ {| url := lit "http://localhost:8080/ask_bot";
         method := lit "POST";
         headers := [ (lit "Content-Type", lit "application/json") ];
         body := JObject [ (lit "conversationsNew", JArray (map wrapper log));
                           (lit "question", JString (input (chat w))) ] |} ] /\
  length (map wrapper log) = length log /\
  length (messages (chat (submit w))) = S (length log).
Proof.
  intros Htext. cbv zeta.
  rewrite (submit_text w Htext), (handleSubmit_sync_text _ Htext).
  cbn [fst sent with_asking with_sent with_chat chat messages].
  split; [| split].
  - reflexivity.
  - apply length_map.
  - rewrite length_app. simpl. lia.
Qed.

Lemma ask_bot_request_carries_prior_log_witness :
  trim (input (chat question_typed)) <> [] /\
  map body (sent (submit question_typed))
    = [ JObject [ (lit "conversationsNew", JArray []);
                  (lit "question", JString (lit "hello")) ];
        JObject [ (lit "conversationsNew",
                   JArray
                     [ JObject [ (lit "messages",
                                  JArray [ JObject [ (lit "sender", JString (lit "user"));
                                                     (lit "text", JString (lit "hello")) ] ]) ];
                       JObject [ (lit "messages",
                                  JArray [ JObject [ (lit "sender", JString (lit "assistant"));
                                                     (lit "text", JString (lit "hi there")) ] ]) ] ]);
                  (lit "question", JString (lit "what now?")) ] ].
Proof.
  split; [exact question_typed_not_blank|].
  rewrite (proj1 (ask_bot_request_carries_prior_log question_typed
                    question_typed_not_blank)).
  reflexivity.
Defined.

(** ** Report dispatch *)

(** C9.  Submitting the dialog with [address] entered sends exactly one
    request, to the email endpoint, whose [to] is the address, whose
    [subject] is the literal "Police Report Summary" and whose [body] is the
    cached last assistant message itself. *)
Theorem dispatch_sends_cached_message
    (open : bool) (X : jsval) (address : jsstring) (s : Email.State) :
  let p := {| Email.isOpen := open; Email.lastBotMessage := X |} in
  snd (Email.handleSubmit_sync p (Email.setEmail address s)) =
    [ Email.Fetch
        {| url := lit "http://localhost:8080/send_email";
           method := lit "POST";
           headers := [ (lit "Content-Type", lit "application/json") ];
           body := JObject [ (lit "to", JString address);
                             (lit "subject", JString (lit "Police Report Summary"));
                             (lit "body", X) ] |} ].
Proof. reflexivity. Qed.

(** The same from the widget: with [X] cached by the owner, exactly one more
    request is on the wire after the dispatch, and it is that one. *)
Lemma dispatch_from_widget (w : World) (X : jsval) (address : jsstring) :
  lastBotMessage (owner w) = Some X ->
  sent (dispatch (enter_address address w)) =
    sent w ++ [ Email.send_email_request (JString address) X ].
Proof.
  intros H. unfold dispatch, modal_handler, enter_address, modal_props.
  cbn. rewrite H. reflexivity.
Qed.

(** ** Speech playback and the session *)

(** C10.  Neither [speak] nor [stop] touches the session: the log, the input
    buffer, the error, the cached last assistant message and the loading
    flag are what they were. *)
Theorem speech_leaves_session_untouched (w : World) (message : jsstring) :
  let same (w' : World) :=
    messages (chat w') = messages (chat w) /\
    input (chat w') = input (chat w) /\
    error (chat w') = error (chat w) /\
    lastBotMessage (owner w') = lastBotMessage (owner w) /\
    isLoading (chat w') = isLoading (chat w) in
  same (speak message w) /\ same (stop w).
Proof.
  cbv zeta. unfold speak, stop, speech_handler, speakMessage, stopSpeaking.
  cbn [snd fst]. destruct (synth w); cbn; repeat split; reflexivity.
Qed.

(** ** Replies that arrive after a reset *)

Lemma select_chat_changed (w : World) (c : option jsstring) :
  chat_eqb c (currentChat (owner w)) = false ->
  select_chat c w =
    with_chat (setMessages (fun _ => []) (chat w))
      (with_owner (setCurrentChat c (owner w)) w).
Proof.
  intros H. unfold select_chat. rewrite H. reflexivity.
Qed.

Example awaiting_reply_state :
  messages (chat awaiting_reply)
    = [ {| role := user; content := JString (lit "hello") |} ] /\
  asking awaiting_reply = 1 /\
  isLoading (chat awaiting_reply) = true /\
  lastBotMessage (owner awaiting_reply) = None.
Proof. repeat split; reflexivity. Qed.

(** C1, as stated, fails: "hello" is submitted in chat-1, the user switches
    to chat-2, and then the reply "hi there" arrives.  It becomes the only
    message of the log of chat-2 and the cached last assistant message. *)
Lemma late_reply_not_discarded :
  let late := ask_reply (reply_body "hi there") (select_chat chat_2 awaiting_reply) in
  messages (chat (select_chat chat_2 awaiting_reply)) = [] /\
  messages (chat late)
    = [ {| role := assistant; content := JString (lit "hi there") |} ] /\
  lastBotMessage (owner late) = Some (JString (lit "hi there")) /\
  ~ late_reply_discarded awaiting_reply chat_2 (reply_body "hi there").
Proof.
  cbv zeta. split; [reflexivity|]. split; [reflexivity|]. split; [reflexivity|].
  intros [H _]. vm_compute in H. discriminate H.
Qed.

(** C1, amended.  The continuation of a submit knows nothing of the chat it
    was made in.  A reply that arrives after the switch to another chat (or
    to none) and that the code accepts is appended to the log the reset had
    emptied and is recorded as the last assistant message; a failed one
    leaves both as the reset left them and sets the error. *)
Theorem late_reply_is_applied
    (w : World) (n : nat) (c : option jsstring) (o : FetchOutcome) :
  asking w = S n ->
  chat_eqb c (currentChat (owner w)) = false ->
  let fresh := select_chat c w in
  let late := ask_reply o fresh in
  messages (chat fresh) = [] /\
  currentChat (owner late) = c /\
  (forall data reply,
     o = Resolved true (Some data) ->
     get_prop data (lit "response") = Normal reply ->
     messages (chat late) = [ {| role := assistant; content := reply |} ] /\
     lastBotMessage (owner late) = Some reply) /\
  (request_failed o ->
     messages (chat late) = [] /\
     lastBotMessage (owner late) = lastBotMessage (owner fresh) /\
     error (chat late) = Some error_text).
Proof.
  intros Hn Hc. cbv zeta. rewrite (select_chat_changed w c Hc).
  split; [reflexivity|]. split; [| split].
  - unfold ask_reply. cbn [asking with_chat with_owner]. rewrite Hn.
    unfold chat_handler, handleSubmit_resume.
    destruct (read_reply o); reflexivity.
  - intros data reply -> Hreply. apply read_reply_ok in Hreply.
    erewrite ask_reply_success; [| cbn; exact Hn | exact Hreply].
    rewrite (handleSubmit_resume_reply _ _ _ Hreply). cbn. auto.
  - intros Hfail. destruct (read_reply_failed o Hfail) as [m Hm].
    erewrite ask_reply_failure; [| cbn; exact Hn | exact Hm].
    rewrite (handleSubmit_resume_throw _ _ _ Hm). cbn. auto.
Qed.

Lemma late_reply_is_applied_witness :
  asking awaiting_reply = 1 /\
  chat_eqb chat_2 (currentChat (owner awaiting_reply)) = false /\
  messages (chat (ask_reply (reply_body "hi there")
                    (select_chat chat_2 awaiting_reply)))
    = [ {| role := assistant; content := JString (lit "hi there") |} ].
Proof.
  split; [reflexivity|]. split; [reflexivity|].
  destruct (late_reply_is_applied awaiting_reply 0 chat_2 (reply_body "hi there")
              eq_refl eq_refl) as (_ & _ & Happlied & _).
  exact (proj1 (Happlied _ _ eq_refl eq_refl)).
Defined.

(** ** Reset *)

Example one_exchange_state :
  messages (chat one_exchange)
    = [ {| role := user; content := JString (lit "hello") |};
        {| role := assistant; content := JString (lit "hi there") |} ] /\
  lastBotMessage (owner one_exchange) = Some (JString (lit "hi there")) /\
  asking one_exchange = 0.
Proof. repeat split; reflexivity. Qed.





(** ** Bodies that lack the [response] field *)

(** C3, as stated, fails: the request of "hello" is answered with status 200
    and the body [{}].  An assistant message whose content is [undefined]
    is appended, [undefined] is recorded as the last assistant message, and
    no error is set. *)
Lemma missing_field_is_accepted :
  let after := ask_reply (Resolved true (Some (JObject []))) awaiting_reply in
  messages (chat after)
    = [ {| role := user; content := JString (lit "hello") |};
        {| role := assistant; content := JUndefined |} ] /\
  lastBotMessage (owner after) = Some JUndefined /\
  error (chat after) = None /\
  ~ missing_field_is_failure awaiting_reply [].
Proof.
  cbv zeta. split; [reflexivity|]. split; [reflexivity|]. split; [reflexivity|].
  intros (_ & H & _). vm_compute in H. discriminate H.
Qed.

(** C3, amended.  The code looks at the status only.  A 2xx response whose
    body is an object without a [response] field goes the way of a success:
    an assistant message with content [undefined] is appended,
    [undefined] is recorded as the last assistant message, the loading flag
    is cleared and the error is not touched. *)
Theorem missing_field_appends_undefined
    (w : World) (n : nat) (fields : list (jsstring * jsval)) :
  asking w = S n ->
  ~ In (lit "response") (map fst fields) ->
  let after := ask_reply (Resolved true (Some (JObject fields))) w in
  messages (chat after)
    = messages (chat w) ++ [ {| role := assistant; content := JUndefined |} ] /\
  lastBotMessage (owner after) = Some JUndefined /\
  isLoading (chat after) = false /\
  error (chat after) = error (chat w).
Proof.
  intros Hn Habsent. cbv zeta.
  assert (Hreply : read_reply (Resolved true (Some (JObject fields))) = Normal JUndefined).
  { simpl. now rewrite (lookup_field_absent _ _ Habsent). }
  rewrite (ask_reply_success _ _ w n Hn Hreply).
  rewrite (handleSubmit_resume_reply _ _ _ Hreply). cbn. auto.
Qed.

Lemma missing_field_appends_undefined_witness :
  asking awaiting_reply = 1 /\
  ~ In (lit "response") (map fst [ (lit "answer", JString (lit "hi")) ]) /\
  lastBotMessage
    (owner (ask_reply
              (Resolved true (Some (JObject [ (lit "answer", JString (lit "hi")) ])))
              awaiting_reply))
    = Some JUndefined.
Proof.
  assert (Habsent : ~ In (lit "response") (map fst [ (lit "answer", JString (lit "hi")) ])).
  { simpl. intros [H|[]]. discriminate H. }
  split; [reflexivity|]. split; [exact Habsent|].
  exact (proj1 (proj2 (missing_field_appends_undefined awaiting_reply 0
                         [ (lit "answer", JString (lit "hi")) ] eq_refl Habsent))).
Defined.

(** ** The dialog *)

(** C4.  Closing the dialog discards the address entered so far: whatever
    was typed into the open dialog, a closed dialog shows nothing, and after
    [close] and [open] the address field is empty. *)
Theorem close_discards_entered_address (w : World) (address : jsstring) :
  let typed := enter_address address (open_dialog w) in
  let closed := close_dialog typed in
  let reopened := open_dialog closed in
  Email.address_field (modal_props (owner typed)) (modal typed) = Some address /\
  Email.address_field (modal_props (owner closed)) (modal closed) = None /\
  Email.address_field (modal_props (owner reopened)) (modal reopened) = Some [] /\
  Email.email (modal reopened) = [].
Proof. cbv zeta. repeat split; reflexivity. Qed.

Example closed_and_reopened :
  let w := run one_exchange
             [ OpenDialog; TypeAddress (lit "a@b.c"); CloseDialog; OpenDialog ] in
  Email.address_field (modal_props (owner w)) (modal w) = Some [] /\
  Email.lastBotMessage (modal_props (owner w)) = JString (lit "hi there").
Proof. split; reflexivity. Qed.

(** A dispatch is on its way when the dialog is closed and opened again; the
    backend then acknowledges it.  The alert is shown and the dialog, the
    new one, is closed; its cells are the initial ones. *)
Example reply_to_a_closed_dialog :
  let ok := Resolved true (Some (JObject [ (lit "success", JBool true) ])) in
  let w := run one_exchange
             [ OpenDialog; TypeAddress (lit "a@b.c"); Dispatch;
               CloseDialog; OpenDialog; OrphanMailReply ok ] in
  alerts w = [ lit "Email sent successfully!" ] /\
  isOpen (owner w) = false /\
  modal w = Email.initial /\
  orphaned w = 0.
Proof. repeat split; reflexivity. Qed.

(** ** Playback *)

Example pick_voice_prefers_en_IN :
  let uk := {| name := lit "Google UK English Female"; lang := lit "en-GB" |} in
  let hi := {| name := lit "Google Hindi"; lang := lit "hi-IN" |} in
  let ind := {| name := lit "Veena FEMALE"; lang := lit "en-IN" |} in
  pick_voice [uk; hi; ind] = Some ind /\
  pick_voice [hi; uk] = Some uk /\
  pick_voice [hi] = None /\
  pick_voice [] = None.
Proof. repeat split; reflexivity. Qed.

(** [speak a], playback of [a] starts, [speak b] pre-empts it, on an engine
    that sends [end] to the utterance it cancels: once [b] has started it is
    the only utterance and the flag is set. *)
Example preempted_on_engine_that_ends_cancelled :
  let a := lit "hi there" in
  let b := lit "file a report" in
  let w := run (init (WithSpeech true))
             [ SelectChat chat_1; Speak a; SynthStart; Speak b;
               SynthInterruptedEnd; SynthStart ] in
  utterances w = [make_utterance [] b] /\
  now_playing w = Some (make_utterance [] b) /\
  isSpeaking (chat w) = true.
Proof. repeat split; reflexivity. Qed.

Lemma init_playback_invariant (p : Platform) :
  playback_invariant (init p).
Proof.
  destruct p; unfold playback_invariant; simpl.
  split; [lia|]. repeat (split; [constructor|]). discriminate.
Qed.

(** A step that leaves the engine and the speaking flag alone keeps the
    invariant. *)
Lemma playback_invariant_frame (w w' : World) :
  synth w' = synth w ->
  isSpeaking (chat w') = isSpeaking (chat w) ->
  playback_invariant w -> playback_invariant w'.
Proof.
  unfold playback_invariant. intros -> ->. trivial.
Qed.

(** After [cancel] every utterance the engine still knows of was built by
    [speakMessage]. *)
Lemma cancel_interrupted (sy : Synth) :
  Forall made_by_speakMessage (queue sy) ->
  Forall made_by_speakMessage (interrupted sy) ->
  Forall made_by_speakMessage (interrupted (cancel sy)).
Proof.
  intros Hq Hi. unfold cancel. cbn.
  destruct (ends_on_cancel sy); [apply Forall_app; auto | exact Hi].
Qed.

Lemma chat_effects_frame (fx : list Chat.Effect) (w : World) :
  synth (fold_left chat_effect fx w) = synth w /\
  chat (fold_left chat_effect fx w) = chat w.
Proof.
  revert w. induction fx as [|e fx IH]; intros w; simpl; [auto|].
  destruct (IH (chat_effect w e)) as [-> ->]. destruct e; auto.
Qed.

Lemma modal_effects_frame (fx : list Email.Effect) (w : World) :
  synth (fold_left modal_effect fx w) = synth w /\
  chat (fold_left modal_effect fx w) = chat w.
Proof.
  revert w. induction fx as [|e fx IH]; intros w; simpl; [auto|].
  destruct (IH (modal_effect w e)) as [-> ->]. destruct e; auto.
Qed.

Lemma chat_handler_frame (h : Chat.State -> Chat.State * list Chat.Effect) (w : World) :
  synth (chat_handler h w) = synth w /\
  chat (chat_handler h w) = fst (h (chat w)).
Proof.
  unfold chat_handler. destruct (h (chat w)) as [c fx].
  destruct (chat_effects_frame fx (with_chat c w)) as [-> ->]. auto.
Qed.

Lemma modal_handler_frame (h : Email.State -> Email.State * list Email.Effect) (w : World) :
  synth (modal_handler h w) = synth w /\
  chat (modal_handler h w) = chat w.
Proof.
  unfold modal_handler. destruct (h (modal w)) as [m fx].
  destruct (modal_effects_frame fx (with_modal m w)) as [-> ->]. auto.
Qed.

Lemma handlers_keep_isSpeaking (s : Chat.State) (o : FetchOutcome) :
  isSpeaking (fst (reset_effect s)) = isSpeaking s /\
  isSpeaking (fst (handleSubmit_sync s)) = isSpeaking s /\
  isSpeaking (fst (handleSubmit_resume o s)) = isSpeaking s.
Proof.
  split; [reflexivity|]. split.
  - unfold handleSubmit_sync.
    destruct (negb (string_truthy (trim (input s)))); reflexivity.
  - unfold handleSubmit_resume. destruct (read_reply o); reflexivity.
Qed.

Lemma made_by_speakMessage_handlers (u : Utterance) :
  made_by_speakMessage u ->
  onstart u = Some (SetIsSpeaking true) /\
  onend u = Some (SetIsSpeaking false) /\
  onboundary u = Some PauseOnWord.
Proof. intros (vs & m & ->). auto. Qed.

Lemma speak_playback_invariant (w : World) (message : jsstring) :
  playback_invariant w -> playback_invariant (speak message w).
Proof.
  unfold playback_invariant, speak, speech_handler, speakMessage. cbn [snd fst].
  destruct (synth w) as [sy|] eqn:E; cbn [synth with_synth with_chat chat];
    [|try rewrite E; trivial].
  intros (_ & Hq & Hi & _). split; [simpl; lia|]. split; [|split].
  - repeat constructor. now eexists _, message.
  - now apply cancel_interrupted.
  - discriminate.
Qed.

Lemma stop_playback_invariant (w : World) :
  playback_invariant w -> playback_invariant (stop w).
Proof.
  unfold playback_invariant, stop, speech_handler, stopSpeaking. cbn [snd fst].
  destruct (synth w) as [sy|] eqn:E; cbn [synth with_synth with_chat chat];
    [|try rewrite E; trivial].
  intros (_ & Hq & Hi & _). split; [simpl; lia|]. split; [constructor|]. split.
  - now apply cancel_interrupted.
  - discriminate.
Qed.

(** The engine and the speaking flag are as they were. *)
Ltac untouched H :=
  eapply playback_invariant_frame; [ | | exact H ];
  rewrite ?(proj1 (chat_handler_frame _ _)), ?(proj2 (chat_handler_frame _ _)),
          ?(proj1 (modal_handler_frame _ _)), ?(proj2 (modal_handler_frame _ _));
  try reflexivity.

Lemma start_playback_invariant (w : World) :
  playback_invariant w -> playback_invariant (step w SynthStart).
Proof.
  intros Hinv. pose proof Hinv as Hsame. unfold playback_invariant in Hinv.
  unfold step. destruct (synth w) as [sy|] eqn:E; [|exact Hsame].
  destruct (queue sy) as [|u q] eqn:Eq; [exact Hsame|].
  destruct (can_start sy) eqn:Hgo; [|exact Hsame].
  destruct Hinv as (Hlen & Hq & Hi & _).
  destruct (made_by_speakMessage_handlers u (Forall_inv Hq)) as (Hs & _ & _).
  unfold can_start in Hgo. destruct (interrupted sy) eqn:Ei;
    [|rewrite andb_false_r in Hgo; discriminate Hgo].
  unfold engine_event, run_callback, playback_invariant. rewrite Hs. cbn.
  rewrite Eq, Ei. split; [exact Hlen|]. split; [exact Hq|]. split; [constructor|].
  intros _. split; [discriminate | split; reflexivity].
Qed.

Lemma boundary_playback_invariant (w : World) (nm : jsstring) :
  playback_invariant w -> playback_invariant (step w (SynthBoundary nm)).
Proof.
  intros Hinv. pose proof Hinv as Hsame. unfold playback_invariant in Hinv.
  unfold step. destruct (synth w) as [sy|] eqn:E; [|exact Hsame].
  destruct (queue sy) as [|u q] eqn:Eq; [exact Hsame|].
  destruct (speaking sy && negb (paused sy)); [|exact Hsame].
  destruct Hinv as (Hlen & Hq & Hi & Hplay).
  destruct (made_by_speakMessage_handlers u (Forall_inv Hq)) as (_ & _ & Hb).
  unfold engine_event, run_callback, playback_invariant. rewrite Hb.
  destruct (jsstring_eqb nm (lit "word")); cbn; rewrite Eq; auto.
Qed.

Lemma end_playback_invariant (w : World) :
  playback_invariant w -> playback_invariant (step w SynthEnd).
Proof.
  intros Hinv. pose proof Hinv as Hsame. unfold playback_invariant in Hinv.
  unfold step. destruct (synth w) as [sy|] eqn:E; [|exact Hsame].
  destruct (queue sy) as [|u q] eqn:Eq; [exact Hsame|].
  destruct (speaking sy && negb (paused sy)); [|exact Hsame].
  destruct Hinv as (Hlen & Hq & Hi & _).
  destruct (made_by_speakMessage_handlers u (Forall_inv Hq)) as (_ & He & _).
  unfold engine_event, run_callback, playback_invariant. rewrite He. cbn.
  rewrite Eq. cbn. simpl in Hlen. split; [lia|].
  split; [exact (Forall_inv_tail Hq)|]. split; [exact Hi | discriminate].
Qed.

Lemma interrupted_end_playback_invariant (w : World) :
  playback_invariant w -> playback_invariant (step w SynthInterruptedEnd).
Proof.
  intros Hinv. pose proof Hinv as Hsame. unfold playback_invariant in Hinv.
  unfold step. destruct (synth w) as [sy|] eqn:E; [|exact Hsame].
  destruct (interrupted sy) as [|u rest] eqn:Ei; [exact Hsame|].
  destruct Hinv as (Hlen & Hq & Hi & Hplay).
  destruct (made_by_speakMessage_handlers u (Forall_inv Hi)) as (_ & He & _).
  unfold engine_event, run_callback, playback_invariant. rewrite He. cbn.
  rewrite Ei. cbn. split; [exact Hlen|]. split; [exact Hq|].
  split; [exact (Forall_inv_tail Hi)|].
  intros Hsp. destruct (Hplay Hsp) as (_ & Hnone & _). discriminate Hnone.
Qed.

Lemma step_playback_invariant (w : World) (e : Event) :
  playback_invariant w -> playback_invariant (step w e).
Proof.
  intros Hinv.
  destruct e;
    try (unfold step;
         destruct (chat_rendered (currentChat (owner w))); [|exact Hinv]).
  - (* SelectChat *)
    unfold step, select_chat.
    destruct (chat_eqb c (currentChat (owner w))); [exact Hinv|].
    untouched Hinv.
  - (* TypeInput *) untouched Hinv.
  - (* Submit *)
    unfold submit. untouched Hinv.
    apply (handlers_keep_isSpeaking (chat w) Rejected).
  - (* AskReply *)
    unfold step, ask_reply. destruct (asking w) as [|n]; [exact Hinv|].
    untouched Hinv. apply (handlers_keep_isSpeaking (chat w) o).
  - (* UploadFile *) untouched Hinv.
  - (* ToggleRecording *) untouched Hinv.
  - (* Speak *) now apply speak_playback_invariant.
  - (* Stop *) now apply stop_playback_invariant.
  - (* VoicesChanged *)
    unfold step, playback_invariant in *.
    destruct (synth w) as [sy|] eqn:E; [exact Hinv | rewrite E; exact Hinv].
  - (* SynthStart *) now apply start_playback_invariant.
  - (* SynthBoundary *) now apply boundary_playback_invariant.
  - (* SynthEnd *) now apply end_playback_invariant.
  - (* SynthInterruptedEnd *) now apply interrupted_end_playback_invariant.
  - (* TimerFires *)
    unfold step. destruct (timers w) as [|n]; [exact Hinv|].
    unfold playback_invariant in *.
    destruct (synth w) as [sy|] eqn:E; [exact Hinv | rewrite E; exact Hinv].
  - (* OpenDialog *) untouched Hinv.
  - (* CloseDialog *) untouched Hinv.
  - (* TypeAddress *)
    unfold step. destruct (isOpen (owner w)); [|exact Hinv]. untouched Hinv.
  - (* Dispatch *)
    unfold step. destruct (isOpen (owner w)); [|exact Hinv].
    unfold dispatch. untouched Hinv.
  - (* MailReply *)
    unfold step, mail_reply. destruct (mailing w) as [|n]; [exact Hinv|].
    untouched Hinv.
  - (* OrphanMailReply *)
    unfold step, orphan_reply. destruct (orphaned w) as [|n]; [exact Hinv|].
    eapply playback_invariant_frame; [ | | exact Hinv ].
    + now rewrite (proj1 (modal_effects_frame _ _)).
    + now rewrite (proj2 (modal_effects_frame _ _)).
Qed.

Lemma run_playback_invariant (evs : list Event) (w : World) :
  playback_invariant w -> playback_invariant (run w evs).
Proof.
  revert w. induction evs as [|e evs IH]; intros w H; simpl; [exact H|].
  apply IH. now apply step_playback_invariant.
Qed.

Lemma reachable_playback_invariant (w : World) :
  reachable w -> playback_invariant w.
Proof.
  intros (p & evs & ->). apply run_playback_invariant, init_playback_invariant.
Qed.

Lemma speak_queue (w : World) (sy : Synth) (message : jsstring) :
  synth w = Some sy ->
  exists sy',
    synth (speak message w) = Some sy' /\
    queue sy' = [make_utterance (voices sy) message] /\
    voices sy' = voices sy /\
    speaking sy' = false.
Proof.
  intros E. unfold speak, speech_handler, speakMessage. cbn [snd fst].
  rewrite E. eexists. cbn. repeat split.
Qed.

Lemma cancel_twice (sy : Synth) : cancel (cancel sy) = cancel sy.
Proof.
  unfold cancel. cbn. destruct (ends_on_cancel sy); [|reflexivity].
  now rewrite app_nil_r.
Qed.

Lemma stop_idempotent (w : World) : stop (stop w) = stop w.
Proof.
  destruct w as [c m o sy t a ml st al].
  unfold stop, speech_handler, stopSpeaking. cbn [snd fst chat synth].
  destruct sy as [sy|]; [|reflexivity].
  cbn [snd fst chat synth with_synth with_chat]. now rewrite cancel_twice.
Qed.

(** C8.  In every state the widget can be in, the engine holds at most one
    utterance and the speaking flag is set while one is being spoken.
    Where the platform has an engine, [speak a] leaves exactly one
    utterance, for [a], and a [speak b] after it leaves exactly one, for
    [b], not yet started: the one for [a] is gone.  After [stop] the
    flag is clear and no utterance is left; when the utterance being spoken
    comes to its natural end the flag is clear and no utterance is left;
    and a second [stop] changes nothing. *)
Theorem one_utterance_at_a_time (w : World) (a b : jsstring) :
  reachable w ->
  length (utterances w) <= 1 /\
  (forall u, now_playing w = Some u -> isSpeaking (chat w) = true) /\
  (synth w <> None ->
     (exists ua, utterances (speak a w) = [ua] /\ text ua = a) /\
     (exists ub, utterances (speak b (speak a w)) = [ub] /\ text ub = b) /\
     now_playing (speak b (speak a w)) = None) /\
  (isSpeaking (chat (stop w)) = false /\ utterances (stop w) = []) /\
  (forall u, now_playing w = Some u -> engine_paused w = false ->
     isSpeaking (chat (step w SynthEnd)) = false /\
     utterances (step w SynthEnd) = []) /\
  stop (stop w) = stop w.
Proof.
  intros Hreach. pose proof (reachable_playback_invariant w Hreach) as Hinv.
  unfold playback_invariant in Hinv.
  split; [| split; [| split; [| split; [| split]]]].
  - unfold utterances. destruct (synth w); [tauto | simpl; lia].
  - intros u. unfold now_playing, playing.
    destruct (synth w) as [sy|]; [|discriminate].
    destruct (speaking sy); [|discriminate]. intros _. now apply Hinv.
  - intros Hsome. destruct (synth w) as [sy|] eqn:E; [|congruence].
    destruct (speak_queue w sy a E) as (sa & Ha & Hqa & _ & _).
    destruct (speak_queue (speak a w) sa b Ha) as (sb & Hb & Hqb & _ & Hsb).
    unfold utterances, now_playing, playing. rewrite Ha, Hb, Hqa, Hqb, Hsb.
    split; [eexists; split; reflexivity|].
    split; [eexists; split; reflexivity | reflexivity].
  - unfold utterances, stop, speech_handler, stopSpeaking. cbn [snd fst].
    destruct (synth w) as [sy|] eqn:E; cbn; [auto|].
    try rewrite E; auto.
  - intros u. unfold now_playing, playing, engine_paused, utterances, step.
    destruct (synth w) as [sy|] eqn:E; [|discriminate].
    destruct Hinv as (Hlen & Hall & _ & _).
    destruct (speaking sy); [|discriminate].
    destruct (queue sy) as [|u' q] eqn:Eq; [discriminate|].
    intros _ ->. cbn [andb negb].
    destruct (made_by_speakMessage_handlers u' (Forall_inv Hall)) as (_ & He & _).
    unfold engine_event, run_callback. rewrite He. cbn. rewrite Eq. cbn.
    split; [reflexivity|]. simpl in Hlen. destruct q; [reflexivity | simpl in Hlen; lia].
  - apply stop_idempotent.
Qed.

Lemma one_utterance_at_a_time_witness :
  let w := run (init (WithSpeech false))
             [ SelectChat chat_1; Speak (lit "hi there"); SynthStart ] in
  reachable w /\
  synth w <> None /\
  now_playing w = Some (make_utterance [] (lit "hi there")) /\
  engine_paused w = false /\
  isSpeaking (chat w) = true /\
  (exists ub, utterances (speak (lit "b") (speak (lit "a") w)) = [ub] /\
              text ub = lit "b") /\
  isSpeaking (chat (step w SynthEnd)) = false.
Proof.
  cbv zeta.
  assert (Hreach : reachable (run (init (WithSpeech false))
                    [ SelectChat chat_1; Speak (lit "hi there"); SynthStart ])).
  { exists (WithSpeech false). eexists. reflexivity. }
  assert (Hengine : synth (run (init (WithSpeech false))
                    [ SelectChat chat_1; Speak (lit "hi there"); SynthStart ]) <> None).
  { vm_compute. discriminate. }
  destruct (one_utterance_at_a_time _ (lit "a") (lit "b") Hreach)
    as (_ & Hflag & Hspeak & _ & Hend & _).
  split; [exact Hreach|]. split; [exact Hengine|].
  split; [reflexivity|]. split; [reflexivity|].
  split; [exact (Hflag _ eq_refl)|].
  split; [exact (proj1 (proj2 (Hspeak Hengine)))|].
  exact (proj1 (Hend _ eq_refl eq_refl)).
Defined.

(* ------------------------------------------------------------------------- *)
(** * Further properties of the two components *)

Import Keeps.

(** ** The guard of the submit handler *)

(** X1.  [handleSubmit] returns without doing anything exactly when every
    code unit of the input is white space (the empty input included); on
    any other input it sends a request. *)
Theorem submit_ignored_iff_blank (s : Chat.State) :
  (handleSubmit_sync s = (s, []) <-> forallb is_white_space (input s) = true) /\
  (snd (handleSubmit_sync s) <> [] <-> forallb is_white_space (input s) = false).
Proof.
  destruct (forallb is_white_space (input s)) eqn:E.
  - apply trim_nil_iff in E. rewrite (handleSubmit_sync_blank s E).
    split; split; intros H; try reflexivity; try discriminate H.
    now contradiction H.
  - assert (Htext : trim (input s) <> []).
    { intros H. apply trim_nil_iff in H. congruence. }
    rewrite (handleSubmit_sync_text s Htext).
    split; split; intros H; try reflexivity; try discriminate H.
    discriminate.
Qed.

Example submit_ignores_nbsp_and_tab :
  snd (handleSubmit_sync (setInput [160; 9; 32; 12288]%N Chat.initial)) = [] /\
  snd (handleSubmit_sync (setInput (lit " ok ") Chat.initial))
    = [Chat.Fetch (ask_bot_request [] (lit " ok "))].
Proof. split; reflexivity. Qed.

(** ** The voice of an utterance *)

Lemma find_none_iff {A} (f : A -> bool) (l : list A) :
  find f l = None <-> forall x, In x l -> f x = false.
Proof.
  split; [apply find_none|].
  induction l as [|x l IH]; simpl; intros H; [reflexivity|].
  rewrite (H x (or_introl eq_refl)). apply IH. intros y Hy. apply H. now right.
Qed.

Lemma preferred_is_english_female (v : Voice) :
  preferred v = true -> english_female v = true.
Proof.
  unfold preferred, english_female. rewrite !andb_true_iff.
  intros [Hl Hf]. apply jsstring_eqb_eq in Hl. rewrite Hl. split; [reflexivity | exact Hf].
Qed.

(** X2.  The voice given to an utterance is one of the catalogue, English by
    its language tag and female by its name; the utterance is left with the
    platform's default voice exactly when the catalogue has no such voice,
    which is the case of an empty catalogue. *)
Theorem pick_voice_english_female (vs : list Voice) :
  (forall v, pick_voice vs = Some v -> In v vs /\ english_female v = true) /\
  (pick_voice vs = None <-> forall v, In v vs -> english_female v = false) /\
  pick_voice [] = None.
Proof.
  unfold pick_voice. fold preferred. fold english_female.
  change (fun v : Voice => jsstring_eqb (lang v) (lit "en-IN") && is_female v)
    with preferred.
  change (fun v : Voice => startsWith (lang v) (lit "en") && is_female v)
    with english_female.
  split; [| split; [| reflexivity]].
  - intros v. destruct (find preferred vs) as [p|] eqn:Ep.
    + intros H. injection H as <-. apply find_some in Ep.
      split; [tauto | apply preferred_is_english_female; tauto].
    + intros H. apply find_some in H. exact H.
  - destruct (find preferred vs) as [p|] eqn:Ep.
    + split; [discriminate|]. intros H. apply find_some in Ep.
      destruct Ep as [Hin Hp]. apply preferred_is_english_female in Hp.
      rewrite (H p Hin) in Hp. discriminate Hp.
    + apply find_none_iff.
Qed.

(** X3.  An Indian English female voice wins over every other: when the
    catalogue has one, wherever it stands, the utterance gets a voice whose
    language tag is "en-IN" and whose name says female. *)
Theorem pick_voice_prefers_indian_english (vs : list Voice) (v : Voice) :
  In v vs ->
  lang v = lit "en-IN" ->
  is_female v = true ->
  exists p, pick_voice vs = Some p /\ In p vs /\
            lang p = lit "en-IN" /\ is_female p = true.
Proof.
  intros Hin Hlang Hf. unfold pick_voice.
  change (fun v : Voice => jsstring_eqb (lang v) (lit "en-IN") && is_female v)
    with preferred.
  destruct (find preferred vs) as [p|] eqn:Ep.
  - exists p. apply find_some in Ep. destruct Ep as [Hp Hpref].
    unfold preferred in Hpref. apply andb_true_iff in Hpref.
    destruct Hpref as [Hl Hfem]. apply jsstring_eqb_eq in Hl. auto.
  - pose proof (find_none _ _ Ep v Hin) as Hno.
    unfold preferred in Hno. rewrite Hlang, Hf, jsstring_eqb_refl in Hno.
    discriminate Hno.
Qed.

Lemma pick_voice_prefers_indian_english_witness :
  exists p, pick_voice sample_voices = Some p /\ In p sample_voices /\
            lang p = lit "en-IN" /\ is_female p = true.
Proof.
  apply (pick_voice_prefers_indian_english sample_voices
           {| name := lit "Veena FEMALE"; lang := lit "en-IN" |}).
  - simpl. auto.
  - reflexivity.
  - reflexivity.
Defined.

(** ** Settling of a dispatch *)

Lemma acknowledged_read_success (o : FetchOutcome) :
  acknowledged o <-> exists v, Email.read_success o = Normal v /\ truthy v = true.
Proof.
  split.
  - intros (data & v & -> & Hv & Ht). exists v. simpl. auto.
  - intros (v & Hv & Ht). destruct o as [|[] [data|]]; simpl in Hv; try discriminate Hv.
    now exists data, v.
Qed.

Lemma handleSubmit_resume_acknowledged (o : FetchOutcome) (s : Email.State) :
  acknowledged o ->
  Email.handleSubmit_resume o s =
    (Email.setSending false s,
     [ Email.Alert (lit "Email sent successfully!"); Email.OnClose ]).
Proof.
  intros H. apply acknowledged_read_success in H. destruct H as (v & Hv & Ht).
  unfold Email.handleSubmit_resume. now rewrite Hv, Ht.
Qed.

Lemma handleSubmit_resume_refused (o : FetchOutcome) (s : Email.State) :
  ~ acknowledged o ->
  Email.handleSubmit_resume o s =
    (Email.setSending false s,
     [ Email.Alert (lit "Failed to send email. Please try again.") ]).
Proof.
  intros H. unfold Email.handleSubmit_resume.
  destruct (Email.read_success o) as [v|m] eqn:E; [|reflexivity].
  destruct (truthy v) eqn:Et; [|reflexivity].
  exfalso. apply H, acknowledged_read_success. now exists v.
Qed.

(** X4.  When the request of a dispatch settles, the send button is enabled
    again and the address is kept, whatever the outcome.  The dialog asks
    to be closed, after the alert of success, exactly when the status is
    2xx and the body's [success] is truthy; in every other case (transport
    failure, another status, a body that is not JSON or is [null],
    [success] false or missing) the only effect is the alert of failure. *)
Theorem dispatch_settles (o : FetchOutcome) (s : Email.State) :
  let after := Email.handleSubmit_resume o s in
  Email.sending (fst after) = false /\
  Email.email (fst after) = Email.email s /\
  (acknowledged o ->
     snd after = [ Email.Alert (lit "Email sent successfully!"); Email.OnClose ]) /\
  (~ acknowledged o ->
     snd after = [ Email.Alert (lit "Failed to send email. Please try again.") ]).
Proof.
  cbv zeta. split; [reflexivity|]. split; [reflexivity|]. split; intros H.
  - now rewrite (handleSubmit_resume_acknowledged o s H).
  - now rewrite (handleSubmit_resume_refused o s H).
Qed.

Lemma dispatch_settles_witness :
  acknowledged (Resolved true (Some (JObject [ (lit "success", JBool true) ]))) /\
  ~ acknowledged (Resolved false None) /\
  snd (Email.handleSubmit_resume
         (Resolved true (Some (JObject [ (lit "success", JBool true) ])))
         Email.initial)
    = [ Email.Alert (lit "Email sent successfully!"); Email.OnClose ] /\
  snd (Email.handleSubmit_resume (Resolved false None) Email.initial)
    = [ Email.Alert (lit "Failed to send email. Please try again.") ].
Proof.
  assert (Hyes : acknowledged
                   (Resolved true (Some (JObject [ (lit "success", JBool true) ])))).
  { eexists _, _. repeat split; reflexivity. }
  assert (Hno : ~ acknowledged (Resolved false None)).
  { intros (data & v & H & _). discriminate H. }
  split; [exact Hyes|]. split; [exact Hno|]. split.
  - exact (proj1 (proj2 (proj2 (dispatch_settles _ Email.initial))) Hyes).
  - exact (proj2 (proj2 (proj2 (dispatch_settles _ Email.initial))) Hno).
Defined.

(** A body that says [success: "false"], a string, counts as a success, and
    one that says [success: 0] as a failure: only truthiness is looked at. *)
Example success_is_read_by_truthiness :
  snd (Email.handleSubmit_resume
         (Resolved true (Some (JObject [ (lit "success", JString (lit "false")) ])))
         Email.initial)
    = [ Email.Alert (lit "Email sent successfully!"); Email.OnClose ] /\
  snd (Email.handleSubmit_resume
         (Resolved true (Some (JObject [ (lit "success", JNumber (0 # 1)) ])))
         Email.initial)
    = [ Email.Alert (lit "Failed to send email. Please try again.") ].
Proof. split; reflexivity. Qed.

Lemma dispatch_unfolded (w : World) :
  dispatch w =
    with_mailing (S (mailing w))
      (with_sent (sent w ++ [ Email.send_email_request
                                (JString (Email.email (modal w)))
                                (Email.lastBotMessage (modal_props (owner w))) ])
         (with_modal (Email.setSending true (modal w)) w)).
Proof. reflexivity. Qed.

Lemma mail_reply_refused (o : FetchOutcome) (w : World) (n : nat) :
  mailing w = S n ->
  ~ acknowledged o ->
  mail_reply o w =
    with_alerts (alerts w ++ [ lit "Failed to send email. Please try again." ])
      (with_modal (Email.setSending false (modal w)) (with_mailing n w)).
Proof.
  intros Hn Hno. unfold mail_reply, modal_handler. rewrite Hn.
  cbn [modal with_mailing]. rewrite (handleSubmit_resume_refused o _ Hno).
  reflexivity.
Qed.

(** X5.  After a dispatch that fails the dialog is as it was before the
    dispatch, up to the alert shown: as visible as before, the address in
    place, the button enabled.  Dispatching again sends the very same
    request a second time. *)
Theorem failed_dispatch_can_be_retried (w : World) (o : FetchOutcome) :
  ~ acknowledged o ->
  let request :=
    Email.send_email_request (JString (Email.email (modal w)))
      (Email.lastBotMessage (modal_props (owner w))) in
  let failed := mail_reply o (dispatch w) in
  owner failed = owner w /\
  modal failed = Email.setSending false (modal w) /\
  alerts failed = alerts w ++ [ lit "Failed to send email. Please try again." ] /\
  sent failed = sent w ++ [ request ] /\
  sent (dispatch failed) = sent w ++ [ request; request ].
Proof.
  intros Hno. cbv zeta.
  rewrite (mail_reply_refused o (dispatch w) (mailing w) eq_refl Hno).
  rewrite !dispatch_unfolded. cbn. rewrite <- app_assoc.
  repeat split; reflexivity.
Qed.

Lemma failed_dispatch_can_be_retried_witness :
  ~ acknowledged (Resolved false None) /\
  sent (dispatch (mail_reply (Resolved false None)
                    (dispatch (enter_address (lit "a@b.c") (open_dialog one_exchange)))))
    = sent one_exchange ++
      [ Email.send_email_request (JString (lit "a@b.c")) (JString (lit "hi there"));
        Email.send_email_request (JString (lit "a@b.c")) (JString (lit "hi there")) ].
Proof.
  assert (Hno : ~ acknowledged (Resolved false None)).
  { intros (data & v & H & _). discriminate H. }
  split; [exact Hno|].
  exact (proj2 (proj2 (proj2 (proj2
           (failed_dispatch_can_be_retried
              (enter_address (lit "a@b.c") (open_dialog one_exchange))
              (Resolved false None) Hno))))).
Defined.

(** ** The log *)

(** X6.  The log is never rewritten: an event either empties it, which only
    a change of the active chat does, or leaves what is there in place and
    in order and appends at most one message. *)
Theorem log_is_append_only (w : World) (e : Event) :
  (exists c, e = SelectChat c /\
             chat_eqb c (currentChat (owner w)) = false /\
             messages (chat (step w e)) = []) \/
  (exists tail, messages (chat (step w e)) = messages (chat w) ++ tail /\
                length tail <= 1).
Proof.
  destruct e.
  1: { destruct (chat_eqb c (currentChat (owner w))) eqn:Hc.
       - right. exists []. unfold step, select_chat. rewrite Hc, app_nil_r. auto.
       - left. exists c. unfold step. rewrite (select_chat_changed w c Hc). auto. }
  all: right.
  all: by_cases_of_step.
  all: try (exists []; rewrite app_nil_r; split; [reflexivity | simpl; lia]).
  all: eexists [_]; split; [reflexivity | simpl; lia].
Qed.

(** ** What holds in every state *)

(** A property of the initial states that every event preserves holds
    wherever the widget can get. *)
Lemma reachable_ind (P : World -> Prop) :
  (forall p, P (init p)) ->
  (forall w e, P w -> P (step w e)) ->
  forall w, reachable w -> P w.
Proof.
  intros Hinit Hstep w (p & evs & ->). unfold run.
  generalize (Hinit p). generalize (init p).
  induction evs as [|e evs IH]; intros w0 H0; simpl; [exact H0|].
  apply IH, Hstep, H0.
Qed.

Lemma step_busy_flags_backed (w : World) (e : Event) :
  busy_flags_backed w -> busy_flags_backed (step w e).
Proof.
  unfold busy_flags_backed. intros [Hask Hmail].
  destruct e; by_cases_of_step; split; intros; try lia; try discriminate; auto;
    repeat match goal with
           | H : ?A -> _, H' : ?A |- _ => specialize (H H')
           end;
    lia.
Qed.

(** X7.  A busy flag is never left set with nothing to clear it: while the
    spinner of the chat shows, a request to /ask_bot is still out, and
    while the send button of the dialog is disabled, a request to
    /send_email is still out.  Every settling, good or bad, clears its
    flag. *)
Theorem busy_flag_has_request_out (w : World) :
  reachable w ->
  (isLoading (chat w) = true -> 0 < asking w) /\
  (Email.sending (modal w) = true -> 0 < mailing w) /\
  (forall o, 0 < asking w -> isLoading (chat (step w (AskReply o))) = false) /\
  (forall o, 0 < mailing w -> Email.sending (modal (step w (MailReply o))) = false).
Proof.
  intros Hreach.
  assert (Hinv : busy_flags_backed w).
  { revert w Hreach. apply (reachable_ind busy_flags_backed).
    - intros p. split; discriminate.
    - apply step_busy_flags_backed. }
  split; [apply Hinv|]. split; [apply Hinv|]. split.
  - intros o Hout. unfold step, ask_reply.
    destruct (asking w) as [|n]; [lia|].
    rewrite (proj2 (chat_handler_frame _ _)). unfold handleSubmit_resume.
    destruct (read_reply o); reflexivity.
  - intros o Hout. unfold step, mail_reply.
    destruct (mailing w) as [|n]; [lia|].
    unfold modal_handler, Email.handleSubmit_resume. cbn [modal with_mailing].
    match goal with
    | |- context [fold_left modal_effect ?fx ?w0] =>
        generalize fx; intros fx0;
        assert (Hm : forall fx1 w1,
                   Email.sending (modal w1) = false ->
                   Email.sending (modal (fold_left modal_effect fx1 w1)) = false)
    end.
    { induction fx1 as [|x fx1 IH]; intros w1 Hw1; simpl; [exact Hw1|].
      apply IH. destruct x; auto. }
    apply Hm. reflexivity.
Qed.

Lemma busy_flag_has_request_out_witness :
  reachable awaiting_reply /\
  isLoading (chat awaiting_reply) = true /\
  0 < asking awaiting_reply /\
  isLoading (chat (step awaiting_reply (AskReply Rejected))) = false.
Proof.
  assert (Hreach : reachable awaiting_reply).
  { exists (WithSpeech false). eexists. reflexivity. }
  destruct (busy_flag_has_request_out awaiting_reply Hreach)
    as (Hask & _ & Hclear & _).
  split; [exact Hreach|]. split; [reflexivity|].
  split; [exact (Hask eq_refl)|].
  exact (Hclear Rejected (Hask eq_refl)).
Defined.


Lemma step_pause_backed (w : World) (e : Event) :
  pause_backed w -> pause_backed (step w e).
Proof.
  unfold pause_backed, engine_paused. intros Hinv.
  destruct e; by_cases_of_step; intros; try lia; try discriminate; auto;
    repeat match goal with
           | H : ?A -> _, H' : ?A |- _ => specialize (H H')
           end;
    try lia; try congruence.
Qed.

Lemma world_eta (w : World) (sy : Synth) :
  synth w = Some sy ->
  with_timers (timers w) (with_synth (Some sy) (with_chat (chat w) w)) = w.
Proof. destruct w; simpl. now intros ->. Qed.

(** X8.  Playback is never left paused: whenever the engine is paused a
    timer that resumes it is pending, and when a pending timer fires the
    engine is not paused any more.  Only a word boundary pauses; a boundary
    event of another kind leaves the widget as it is. *)
Theorem paused_engine_has_resume_pending (w : World) :
  reachable w ->
  (engine_paused w = true -> 0 < timers w) /\
  (0 < timers w -> engine_paused (step w TimerFires) = false) /\
  (forall nm, jsstring_eqb nm (lit "word") = false ->
              step w (SynthBoundary nm) = w).
Proof.
  intros Hreach. split; [| split].
  - revert w Hreach. apply (reachable_ind pause_backed).
    + intros []; discriminate.
    + apply step_pause_backed.
  - intros Hpending. unfold step, engine_paused.
    destruct (timers w) as [|n]; [lia|].
    destruct (synth w) as [sy|] eqn:E; cbn; [reflexivity | now rewrite E].
  - intros nm Hnm. pose proof (reachable_playback_invariant w Hreach) as Hinv.
    unfold playback_invariant in Hinv. unfold step.
    destruct (synth w) as [sy|] eqn:E; [|reflexivity].
    destruct (queue sy) as [|u q] eqn:Eq; [reflexivity|].
    destruct (speaking sy && negb (paused sy)); [|reflexivity].
    destruct Hinv as (_ & Hq & _).
    destruct (made_by_speakMessage_handlers u (Forall_inv Hq)) as (_ & _ & Hb).
    unfold engine_event, run_callback. rewrite Hb, Hnm.
    now apply world_eta.
Qed.

Lemma paused_engine_has_resume_pending_witness :
  reachable paused_at_word /\
  engine_paused paused_at_word = true /\
  0 < timers paused_at_word /\
  engine_paused (step paused_at_word TimerFires) = false.
Proof.
  assert (Hreach : reachable paused_at_word).
  { exists (WithSpeech false). eexists. reflexivity. }
  destruct (paused_engine_has_resume_pending paused_at_word Hreach)
    as (Hpaused & Hfires & _).
  split; [exact Hreach|]. split; [reflexivity|].
  split; [exact (Hpaused eq_refl)|].
  exact (Hfires (Hpaused eq_refl)).
Defined.

(** ** The cached message and the log *)

Arguments last_assistant : simpl never.
Arguments trim : simpl never.

Lemma last_assistant_snoc (log : list Message) (m : Message) :
  last_assistant (log ++ [m]) =
    if is_assistant m then Some (content m) else last_assistant log.
Proof.
  unfold last_assistant. rewrite rev_unit. simpl.
  destruct (is_assistant m); reflexivity.
Qed.

Lemma step_cache_follows_log (w : World) (e : Event) :
  cache_follows_log w -> cache_follows_log (step w e).
Proof.
  unfold cache_follows_log. intros Hinv.
  destruct e; by_cases_of_step; intros m0 Hm0;
    rewrite ?last_assistant_snoc in Hm0; cbn in Hm0;
    try discriminate Hm0; try (injection Hm0 as <-); auto.
Qed.

(** X9.  Whenever the log on display holds an assistant message, the
    message cached for the email dialog is the content of the last one of
    them. *)
Theorem cached_message_is_last_assistant_turn (w : World) (m : jsval) :
  reachable w ->
  last_assistant (messages (chat w)) = Some m ->
  lastBotMessage (owner w) = Some m.
Proof.
  intros Hreach. revert m. revert w Hreach.
  apply (reachable_ind cache_follows_log).
  - intros p m H. discriminate H.
  - apply step_cache_follows_log.
Qed.

Lemma cached_message_is_last_assistant_turn_witness :
  reachable one_exchange /\
  last_assistant (messages (chat one_exchange)) = Some (JString (lit "hi there")) /\
  lastBotMessage (owner one_exchange) = Some (JString (lit "hi there")).
Proof.
  assert (Hreach : reachable one_exchange).
  { exists (WithSpeech false),
      [ SelectChat chat_1; TypeInput (lit "hello"); Submit;
        AskReply (reply_body "hi there") ].
    reflexivity. }
  split; [exact Hreach|]. split; [reflexivity|].
  exact (cached_message_is_last_assistant_turn one_exchange _ Hreach eq_refl).
Defined.

Lemma step_typed_text (w : World) (e : Event) :
  Forall typed_text (messages (chat w)) ->
  Forall typed_text (messages (chat (step w e))).
Proof.
  intros Hinv.
  destruct e; by_cases_of_step; auto; try constructor;
    apply Forall_app; (split; [exact Hinv|]);
    constructor; try constructor; unfold typed_text; cbn; try discriminate.
  intros _. eexists. split; [reflexivity|].
  destruct (forallb is_white_space (input (chat w))) eqn:E; [|reflexivity].
  apply trim_nil_iff in E.
  match goal with
  | H : negb (string_truthy (trim _)) = false |- _ => rewrite E in H; discriminate H
  end.
Qed.

(** X10.  Every user turn in the log holds, as a string, a text that was
    typed and is not blank: no blank turn and no turn of another type ever
    enters the log. *)
Theorem user_turns_are_typed_text (w : World) (m : Message) :
  reachable w ->
  In m (messages (chat w)) ->
  role m = user ->
  exists t, content m = JString t /\ trim t <> [].
Proof.
  intros Hreach Hin Hrole.
  assert (Hall : forall w0, reachable w0 -> Forall typed_text (messages (chat w0))).
  { apply (reachable_ind (fun w0 => Forall typed_text (messages (chat w0)))).
    - intros p. constructor.
    - apply step_typed_text. }
  specialize (Hall w Hreach). rewrite Forall_forall in Hall.
  destruct (Hall m Hin Hrole) as (t & Ht & Hblank).
  exists t. split; [exact Ht|].
  intros H. apply trim_nil_iff in H. congruence.
Qed.

Lemma user_turns_are_typed_text_witness :
  reachable awaiting_reply /\
  In {| role := user; content := JString (lit "hello") |}
     (messages (chat awaiting_reply)) /\
  exists t, JString (lit "hello") = JString t /\ trim t <> [].
Proof.
  assert (Hreach : reachable awaiting_reply).
  { exists (WithSpeech false). eexists. reflexivity. }
  assert (Hin : In {| role := user; content := JString (lit "hello") |}
                   (messages (chat awaiting_reply))).
  { simpl. auto. }
  split; [exact Hreach|]. split; [exact Hin|].
  exact (user_turns_are_typed_text awaiting_reply _ Hreach Hin eq_refl).
Defined.

(** ** Requests *)

Lemma step_to_backend (w : World) (e : Event) :
  Forall to_backend (sent w) -> Forall to_backend (sent (step w e)).
Proof.
  intros Hinv.
  destruct e; by_cases_of_step; auto;
    apply Forall_app; (split; [exact Hinv|]);
    constructor; try constructor; unfold to_backend; cbn; auto.
Qed.

(** X11.  Whatever the user types and whatever the backend answers, every
    request the widget sends is a POST with a JSON content type to
    /ask_bot or to /send_email; and only a submit and a dispatch send
    one. *)
Theorem requests_go_to_the_backend (w : World) :
  reachable w ->
  Forall to_backend (sent w) /\
  (forall e, e <> Submit -> e <> Dispatch -> sent (step w e) = sent w).
Proof.
  intros Hreach. split.
  - revert w Hreach. apply (reachable_ind (fun w => Forall to_backend (sent w))).
    + intros p. constructor.
    + apply step_to_backend.
  - intros e Hs Hd. destruct e; try congruence; by_cases_of_step; reflexivity.
Qed.

Lemma requests_go_to_the_backend_witness :
  reachable awaiting_reply /\
  Forall to_backend (sent awaiting_reply) /\
  length (sent awaiting_reply) = 1.
Proof.
  assert (Hreach : reachable awaiting_reply).
  { exists (WithSpeech false). eexists. reflexivity. }
  split; [exact Hreach|].
  split; [exact (proj1 (requests_go_to_the_backend awaiting_reply Hreach))|].
  reflexivity.
Defined.

(** ** Playback and the rest of the widget *)

(** X12.  The session and the dialog never touch playback: selecting a
    chat, submitting, a reply to a submit, dispatching and a reply to a
    dispatch leave the engine, its pending timers and the speaking flag as
    they are.  In particular a change of chat does not stop an utterance. *)
Theorem playback_untouched_by_session
    (w : World) (c : option jsstring) (o : FetchOutcome) :
  let same (w' : World) :=
    synth w' = synth w /\
    timers w' = timers w /\
    isSpeaking (chat w') = isSpeaking (chat w) in
  same (select_chat c w) /\ same (submit w) /\ same (ask_reply o w) /\
  same (dispatch w) /\ same (mail_reply o w).
Proof.
  cbv zeta. repeat split; by_cases_of_step; reflexivity.
Qed.

Lemma step_keeps_engine (w : World) (e : Event) :
  synth w <> None -> synth (step w e) <> None.
Proof.
  intros Hsome. destruct e; by_cases_of_step; congruence.
Qed.

(** X13.  The widget never runs without a speech engine.  Mounting it where
    [window.speechSynthesis] is missing throws in the voices effect, and
    where it mounts the engine is there in every state it can reach.  So
    the capability test of [speakMessage] and [stopSpeaking] never fails
    in a running widget: [speak] always leaves exactly the new utterance
    queued, and [stop] always clears the queue and the speaking flag. *)
Theorem engine_present_wherever_widget_runs (w : World) (message : jsstring) :
  reachable w ->
  (exists m, mount None = Throw m) /\
  (forall p, mount (Some (engine_of p)) = Normal (init p)) /\
  exists sy,
    synth w = Some sy /\
    utterances (speak message w) = [ make_utterance (voices sy) message ] /\
    utterances (stop w) = [] /\
    isSpeaking (chat (stop w)) = false.
Proof.
  intros Hreach. split; [eexists; reflexivity|]. split; [reflexivity|].
  assert (Hsome : synth w <> None).
  { revert w Hreach. apply (reachable_ind (fun w => synth w <> None)).
    - intros p. discriminate.
    - apply step_keeps_engine. }
  destruct (synth w) as [sy|] eqn:E; [|congruence].
  exists sy. split; [reflexivity|].
  unfold utterances, speak, stop, speech_handler, speakMessage, stopSpeaking.
  cbn [snd fst]. rewrite E. cbn. repeat split; reflexivity.
Qed.

Lemma engine_present_wherever_widget_runs_witness :
  reachable one_exchange /\
  exists sy,
    synth one_exchange = Some sy /\
    utterances (speak (lit "hi there") one_exchange)
      = [ make_utterance (voices sy) (lit "hi there") ].
Proof.
  assert (Hreach : reachable one_exchange).
  { exists (WithSpeech false),
      [ SelectChat chat_1; TypeInput (lit "hello"); Submit;
        AskReply (reply_body "hi there") ].
    reflexivity. }
  split; [exact Hreach|].
  destruct (engine_present_wherever_widget_runs one_exchange (lit "hi there") Hreach)
    as (_ & _ & sy & Hsy & Hspeak & _).
  exists sy. split; [exact Hsy | exact Hspeak].
Defined.

(** X14.  The voice is chosen from the catalogue as it is when [speak] is
    called: after the platform has announced a new catalogue, the next
    utterance is built from that one; and an utterance already queued is not
    changed by a catalogue that arrives later. *)
Theorem voice_chosen_at_call_time
    (w : World) (sy : Synth) (vs : list Voice) (message : jsstring) :
  synth w = Some sy ->
  utterances (speak message (step w (VoicesChanged vs)))
    = [ make_utterance vs message ] /\
  utterances (step (speak message w) (VoicesChanged vs))
    = [ make_utterance (voices sy) message ].
Proof.
  intros E. unfold utterances, step, speak, speech_handler, speakMessage.
  cbn [snd fst]. rewrite E. cbn. rewrite ?E. cbn. split; reflexivity.
Qed.

Lemma voice_chosen_at_call_time_witness :
  synth (init (WithSpeech false)) <> None /\
  map voice (utterances (speak (lit "hi there")
                           (step (init (WithSpeech false))
                              (VoicesChanged sample_voices))))
    = [ Some {| name := lit "Veena FEMALE"; lang := lit "en-IN" |} ] /\
  map voice (utterances (step (speak (lit "hi there") (init (WithSpeech false)))
                           (VoicesChanged sample_voices)))
    = [ None ].
Proof.
  split; [discriminate|].
  destruct (voice_chosen_at_call_time (init (WithSpeech false)) _ sample_voices
              (lit "hi there") eq_refl) as [Hnew Hold].
  rewrite Hnew, Hold. split; reflexivity.
Defined.

(** ** Smaller handlers and how events combine *)

(** X15.  Submitting twice in a row sends once: a submit that goes through
    empties the input, so the submit that follows it finds nothing to send
    and changes nothing. *)
Theorem submit_twice_sends_once (w : World) :
  submit (submit w) = submit w /\
  (input (chat (submit w)) = [] \/ submit w = w).
Proof.
  destruct (list_eq_dec N.eq_dec (trim (input (chat w))) []) as [Hblank|Htext].
  - rewrite !(submit_blank w Hblank). auto.
  - assert (Hcleared : input (chat (submit w)) = []).
    { rewrite (submit_text w Htext), (handleSubmit_sync_text _ Htext). reflexivity. }
    split; [|left; exact Hcleared].
    apply submit_blank. rewrite Hcleared. reflexivity.
Qed.

(** X16.  The error stays on display until something is submitted: apart
    from a submit and the settling of a request no event writes it, a
    change of chat included; a submit that goes through clears it, and a
    blank one leaves it. *)
Theorem error_stays_until_next_submit (w : World) (e : Event) :
  (e <> Submit -> (forall o, e <> AskReply o) ->
     error (chat (step w e)) = error (chat w)) /\
  (trim (input (chat w)) <> [] -> error (chat (submit w)) = None) /\
  (trim (input (chat w)) = [] -> error (chat (submit w)) = error (chat w)).
Proof.
  split; [| split].
  - intros Hs Ha. destruct e; try congruence;
      try (exfalso; eapply Ha; reflexivity);
      by_cases_of_step; reflexivity.
  - intros Htext. rewrite (submit_text w Htext), (handleSubmit_sync_text _ Htext).
    reflexivity.
  - intros Hblank. now rewrite (submit_blank w Hblank).
Qed.

Lemma error_stays_until_next_submit_witness :
  let failed := step awaiting_reply (AskReply Rejected) in
  error (chat failed) = Some error_text /\
  error (chat (step failed (SelectChat chat_2))) = Some error_text /\
  trim (input (chat (step failed (TypeInput (lit "again"))))) <> [] /\
  error (chat (submit (step failed (TypeInput (lit "again"))))) = None.
Proof.
  cbv zeta. split; [reflexivity|]. split.
  - rewrite (proj1 (error_stays_until_next_submit
                      (step awaiting_reply (AskReply Rejected)) (SelectChat chat_2)));
      [reflexivity | discriminate | discriminate].
  - assert (Htext : trim (input (chat (step (step awaiting_reply (AskReply Rejected))
                                         (TypeInput (lit "again"))))) <> []).
    { vm_compute. discriminate. }
    split; [exact Htext|].
    exact (proj1 (proj2 (error_stays_until_next_submit _ Submit)) Htext).
Defined.

(** X17.  The file input and the microphone button are stubs: choosing a
    file changes nothing at all, and the microphone button only flips the
    recording flag, so that pressing it twice restores the widget; neither
    sends a request or writes to the log. *)
Theorem upload_and_recording_are_stubs (w : World) :
  step w UploadFile = w /\
  step (step w ToggleRecording) ToggleRecording = w /\
  messages (chat (step w ToggleRecording)) = messages (chat w) /\
  sent (step w ToggleRecording) = sent w /\
  (chat_rendered (currentChat (owner w)) = true ->
   isRecording (chat (step w ToggleRecording)) = negb (isRecording (chat w))).
Proof.
  destruct w as [[ms inp rec ld err sp] m o sy t a ml st al].
  unfold step. cbn [owner chat].
  destruct (chat_rendered (currentChat o)) eqn:E; cbn; rewrite ?E; cbn;
    repeat split; intros; try reflexivity; try congruence;
    destruct rec; reflexivity.
Qed.
